(** * Summary statistics and rescaling in the beer-ratings workshop notebook

    A shallow embedding of the logic of [workshop.ipynb]: the per-country
    summary ([dataset_country], [get_stats], [stats_country]), the size
    rescaling ([rescale_to_range]) and the table of the map ([countries],
    [mapped_stats_country], [scaledCount]).

    The notebook is pandas code.  A column is a sequence of cells and every
    arithmetic operator of the notebook is the element-wise operator of a
    pandas [Series] with a scalar.  The code is duck-typed in the cell type, so
    the operators are collected in a class, [Numeric], and the notebook's
    functions are written once over it.  Three instances are given:

    - [Binary64]: IEEE 754 binary64, the [float64] dtype of a column of
      decimal numbers or with missing cells; the code is evaluated on
      concrete inputs here;
    - [NumPy]: cells of either dtype, [int64] or [float64], computed with as
      NumPy does: between two integers [-], [*] and [+] wrap around modulo
      [2^64], [/] is the true division and gives a float, and an integer that
      meets a float is converted to a float first;
    - [Exact]: the same special values (NaN, the two infinities) around
      exact rationals, that is binary64 without rounding; the laws of the
      formulas that rounding and wrap-around break are stated here.

    A missing cell is NaN, as in pandas; the reductions [min], [max],
    [count] and [mean] skip it, and [groupby] drops a row whose key is
    missing.  A cell of the notebook that raises is modelled by an error
    value, [ValueError], that the cells after it pass on. *)

From Stdlib Require Import Strings.String.
From Stdlib Require Import List Bool Arith Lia Permutation Sorted.
From Stdlib Require Import ZArith QArith Qcanon.
From Stdlib Require Import Floats.
Import ListNotations.

Close Scope Qc_scope.
Close Scope Q_scope.

(** ** The cell arithmetic *)

(** What the notebook asks of a cell: the four operators, the order, the
    missing-value test of pandas ([isnull], true of NaN only), the NaN that
    pandas returns for a reduction over no valid cell, and the numbers 0 and
    [n] that [sum] and [mean] compute with. *)
Class Numeric (T : Type) : Type := {
  nadd : T -> T -> T;
  nsub : T -> T -> T;
  nmul : T -> T -> T;
  ndiv : T -> T -> T;
  nltb : T -> T -> bool;
  nleb : T -> T -> bool;
  isnull : T -> bool;
  nan : T;
  zero : T;
  of_count : nat -> T;
  nadd_comm : forall x y, nadd x y = nadd y x;
  isnull_nan : isnull nan = true
}.

(** *** Exact cells *)

Inductive xnum : Type :=
| Fin (q : Qc)
| PInf
| NInf
| NaN.

Module Exact.

Local Open Scope Qc_scope.

Definition sign (q : Qc) : comparison := q ?= 0.

Definition add (x y : xnum) : xnum :=
  match x, y with
  | NaN, _ | _, NaN => NaN
  | Fin p, Fin q => Fin (p + q)
  | PInf, NInf | NInf, PInf => NaN
  | PInf, _ | _, PInf => PInf
  | NInf, _ | _, NInf => NInf
  end.

Definition opp (x : xnum) : xnum :=
  match x with
  | Fin p => Fin (- p)
  | PInf => NInf
  | NInf => PInf
  | NaN => NaN
  end.

Definition sub (x y : xnum) : xnum := add x (opp y).

(** An infinity of the sign [c], NaN for the sign of zero. *)
Definition inf_of (c : comparison) : xnum :=
  match c with
  | Gt => PInf
  | Lt => NInf
  | Eq => NaN
  end.

Definition sign_of (x : xnum) : comparison :=
  match x with
  | Fin p => sign p
  | PInf => Gt
  | NInf => Lt
  | NaN => Eq
  end.

Definition sign_mul (c d : comparison) : comparison :=
  match c, d with
  | Eq, _ | _, Eq => Eq
  | Gt, Gt | Lt, Lt => Gt
  | Gt, Lt | Lt, Gt => Lt
  end.

Definition mul (x y : xnum) : xnum :=
  match x, y with
  | NaN, _ | _, NaN => NaN
  | Fin p, Fin q => Fin (p * q)
  | _, _ => inf_of (sign_mul (sign_of x) (sign_of y))
  end.

(** Division by zero does not raise: [0 / 0] is NaN and [p / 0] is the
    infinity of the sign of [p] (the zero of this model is the positive zero
    of binary64, which is what a difference of equal cells gives). *)
Definition div (x y : xnum) : xnum :=
  match x, y with
  | NaN, _ | _, NaN => NaN
  | Fin p, Fin q =>
      match sign q with
      | Eq => inf_of (sign p)
      | _ => Fin (p / q)
      end
  | Fin _, _ => Fin 0
  | _, Fin q =>
      match sign q with
      | Lt => opp x
      | _ => x
      end
  | _, _ => NaN
  end.

Definition ltb (x y : xnum) : bool :=
  match x, y with
  | NaN, _ | _, NaN => false
  | Fin p, Fin q => match p ?= q with Lt => true | _ => false end
  | NInf, NInf | PInf, _ | _, NInf => false
  | NInf, _ | _, PInf => true
  end.

Definition leb (x y : xnum) : bool :=
  match x, y with
  | NaN, _ | _, NaN => false
  | Fin p, Fin q => match p ?= q with Gt => false | _ => true end
  | NInf, _ | _, PInf => true
  | PInf, _ | _, NInf => false
  end.

Definition is_nan (x : xnum) : bool :=
  match x with
  | NaN => true
  | _ => false
  end.

(** A finite cell; a cell that is finite or missing. *)
Definition finite (x : xnum) : bool :=
  match x with
  | Fin _ => true
  | _ => false
  end.

Definition finite_or_null (x : xnum) : bool :=
  match x with
  | Fin _ | NaN => true
  | _ => false
  end.

Definition of_Z (z : Z) : xnum := Fin (Q2Qc (inject_Z z)).

Definition of_nat (n : nat) : xnum := of_Z (Z.of_nat n).

Lemma xadd_comm (x y : xnum) : add x y = add y x.
Proof.
  destruct x, y; simpl; try reflexivity.
  now rewrite Qcplus_comm.
Qed.

End Exact.

#[export] Instance Exact_Numeric : Numeric xnum := {
  nadd := Exact.add;
  nsub := Exact.sub;
  nmul := Exact.mul;
  ndiv := Exact.div;
  nltb := Exact.ltb;
  nleb := Exact.leb;
  isnull := Exact.is_nan;
  nan := NaN;
  zero := Fin 0%Qc;
  of_count := Exact.of_nat;
  nadd_comm := Exact.xadd_comm;
  isnull_nan := eq_refl
}.

(** *** Binary64 cells *)

Module Binary64.

(** Addition of two specified floats commutes; [PrimFloat.add] inherits it
    through its specification. *)
Lemma SFadd_comm prec emax (x y : spec_float) :
  SFadd prec emax x y = SFadd prec emax y x.
Proof.
  destruct x as [sx|sx| |sx mx ex], y as [sy|sy| |sy my ey]; simpl;
    try reflexivity; try (destruct sx, sy; reflexivity).
  rewrite (Z.min_comm ey ex).
  f_equal. apply Z.add_comm.
Qed.

Lemma fadd_comm (x y : float) : (x + y = y + x)%float.
Proof.
  apply Prim2SF_inj. rewrite !add_spec. apply SFadd_comm.
Qed.

Definition of_nat (n : nat) : float := of_uint63 (Uint63.of_Z (Z.of_nat n)).

End Binary64.

#[export] Instance Binary64_Numeric : Numeric float := {
  nadd := PrimFloat.add;
  nsub := PrimFloat.sub;
  nmul := PrimFloat.mul;
  ndiv := PrimFloat.div;
  nltb := PrimFloat.ltb;
  nleb := PrimFloat.leb;
  isnull := PrimFloat.is_nan;
  nan := PrimFloat.nan;
  zero := PrimFloat.zero;
  of_count := Binary64.of_nat;
  nadd_comm := Binary64.fadd_comm;
  isnull_nan := eq_refl
}.

(** *** Cells of either dtype

    A cell of an [int64] column, or of a [float64] one.  NumPy computes
    [-], [*] and [+] of two [int64] operands in [int64], silently wrapping
    around; [/] is the true division, which converts both operands to
    [float64] (the operator of Python 3; the integer division that Python 2
    gives [/] between two integers is not modelled); an operator that meets
    an integer and a float converts the integer.  A bound of
    [rescale_to_range] given as a Python integer is an [Int64] cell. *)
Inductive scalar : Type :=
| Int64 (z : Z)
| Float64 (f : float).

Module NumPy.

Local Open Scope Z_scope.

(** The representative of [z] modulo [2^64] in [[-2^63, 2^63)]. *)
Definition wrap (z : Z) : Z := (z + 2 ^ 63) mod 2 ^ 64 - 2 ^ 63.

(** The conversion of an [int64] to [float64], rounded to nearest. *)
Definition to_float (z : Z) : float :=
  let m := Z.abs z in
  let f := if m <? 2 ^ 63 then of_uint63 (Uint63.of_Z m) else 0x1p+63%float in
  if z <? 0 then PrimFloat.opp f else f.

Definition as_float (x : scalar) : float :=
  match x with
  | Int64 z => to_float z
  | Float64 f => f
  end.

Definition arith (opz : Z -> Z -> Z) (opf : float -> float -> float)
           (x y : scalar) : scalar :=
  match x, y with
  | Int64 a, Int64 b => Int64 (wrap (opz a b))
  | _, _ => Float64 (opf (as_float x) (as_float y))
  end.

Definition add : scalar -> scalar -> scalar := arith Z.add PrimFloat.add.
Definition sub : scalar -> scalar -> scalar := arith Z.sub PrimFloat.sub.
Definition mul : scalar -> scalar -> scalar := arith Z.mul PrimFloat.mul.

Definition div (x y : scalar) : scalar :=
  Float64 (PrimFloat.div (as_float x) (as_float y)).

Definition ltb (x y : scalar) : bool :=
  match x, y with
  | Int64 a, Int64 b => a <? b
  | _, _ => PrimFloat.ltb (as_float x) (as_float y)
  end.

Definition leb (x y : scalar) : bool :=
  match x, y with
  | Int64 a, Int64 b => a <=? b
  | _, _ => PrimFloat.leb (as_float x) (as_float y)
  end.

(** An integer cell is never missing. *)
Definition is_nan (x : scalar) : bool :=
  match x with
  | Int64 _ => false
  | Float64 f => PrimFloat.is_nan f
  end.

Lemma sadd_comm (x y : scalar) : add x y = add y x.
Proof.
  destruct x as [a|f], y as [b|g]; unfold add, arith; simpl.
  - now rewrite Z.add_comm.
  - now rewrite Binary64.fadd_comm.
  - now rewrite Binary64.fadd_comm.
  - now rewrite Binary64.fadd_comm.
Qed.

End NumPy.

(** The sum and the count of [mean] are floats, whatever the dtype of the
    column. *)
#[export] Instance NumPy_Numeric : Numeric scalar := {
  nadd := NumPy.add;
  nsub := NumPy.sub;
  nmul := NumPy.mul;
  ndiv := NumPy.div;
  nltb := NumPy.ltb;
  nleb := NumPy.leb;
  isnull := NumPy.is_nan;
  nan := Float64 PrimFloat.nan;
  zero := Float64 PrimFloat.zero;
  of_count := fun n => Float64 (Binary64.of_nat n);
  nadd_comm := NumPy.sadd_comm;
  isnull_nan := eq_refl
}.

(** ** The pandas operations the notebook calls *)

(** One row of the [get_stats] dictionary:
    [{'min': ..., 'max': ..., 'count': ..., 'mean': ...}]. *)
Module Stats.
Record t (T : Type) : Type := make {
  min : T;
  max : T;
  count : nat;
  mean : T
}.
Arguments make {T} _ _ _ _.
Arguments min {T} _.
Arguments max {T} _.
Arguments count {T} _.
Arguments mean {T} _.
End Stats.

Section Pandas.

Context {T : Type} {N : Numeric T}.

Definition notnull (v : T) : bool := negb (isnull v).

(** [Series.min()] and [Series.max()] skip the missing cells ([skipna=True])
    and are NaN when no valid cell is left.  Among cells that compare equal
    the fold keeps the first; this shows on binary64 for the two zeros only,
    [0.0] and [-0.0], where NumPy may return the other one (the two are equal
    as numbers). *)
Definition pick (better : T -> T -> bool) (acc v : T) : T :=
  if isnull v then acc
  else if isnull acc then v
  else if better v acc then v else acc.

Definition series_min (x : list T) : T :=
  fold_left (pick nltb) x nan.

Definition series_max (x : list T) : T :=
  fold_left (pick (fun v acc => nltb acc v)) x nan.

(** [Series.count()]: the number of cells that are not missing. *)
Definition series_count (x : list T) : nat :=
  fold_left (fun n v => if isnull v then n else S n) x 0.

(** [Series.mean()]: the missing cells are replaced by zero and summed with
    the others; the sum is divided by the count of valid cells, and the
    result is NaN when that count is zero.  The sum runs from left to right;
    NumPy sums a column of eight cells or more pairwise, so that on binary64
    the last bits of the sum of a long column may differ from the model (in
    exact arithmetic the order of the terms plays no part). *)
Definition fillna (d : T) (x : list T) : list T :=
  map (fun v => if isnull v then d else v) x.

Definition series_sum (x : list T) : T :=
  fold_left nadd (fillna zero x) zero.

Definition series_mean (x : list T) : T :=
  match series_count x with
  | O => nan
  | S _ as n => ndiv (series_sum x) (of_count n)
  end.

(** The element-wise operators of a [Series] with a scalar. *)
Definition series_sub (x : list T) (s : T) : list T := map (fun v => nsub v s) x.
Definition scalar_mul (s : T) (x : list T) : list T := map (fun v => nmul s v) x.
Definition series_div (x : list T) (s : T) : list T := map (fun v => ndiv v s) x.
Definition series_add (x : list T) (s : T) : list T := map (fun v => nadd v s) x.

(** *** [rescale_to_range]

<<
def rescale_to_range(a, b, x):
    return((((b - a) * (x - x.min())) / (x.max() - x.min())) + a)
>> *)
Definition rescale_to_range (a b : T) (x : list T) : list T :=
  series_add
    (series_div
       (scalar_mul (nsub b a) (series_sub x (series_min x)))
       (nsub (series_max x) (series_min x)))
    a.

(** The cell the expression computes at each position, given the two
    extrema of the column. *)
Definition rescaled (a b lo hi v : T) : T :=
  nadd (ndiv (nmul (nsub b a) (nsub v lo)) (nsub hi lo)) a.

(** *** [get_stats]

<<
def get_stats(group):
    return {'min': group.min(), 'max': group.max(),
            'count': group.count(), 'mean': group.mean()}
>> *)
Definition get_stats (group : list T) : Stats.t T :=
  Stats.make (series_min group) (series_max group)
             (series_count group) (series_mean group).

End Pandas.

(** ** The grouped summary *)

(** A row of [dataset], restricted to the two columns the summary reads:
    [Country] (text, [None] for a missing cell) and [Overall]. *)
Record Row (T : Type) : Type := {
  Country : option string;
  Overall : T
}.
Arguments Country {T} _.
Arguments Overall {T} _.

(** The grouping of [Series.groupby]: for every key, the positions of the rows
    that carry it, in row order; the keys in ascending order ([sort=True]). *)
Fixpoint add_row (k : string) (i : nat) (groups : list (string * list nat))
  : list (string * list nat) :=
  match groups with
  | [] => [(k, [i])]
  | (k', rows) :: rest =>
      match String.compare k k' with
      | Eq => (k', rows ++ [i]) :: rest
      | Lt => (k, [i]) :: groups
      | Gt => (k', rows) :: add_row k i rest
      end
  end.

(** A row whose key is missing is dropped: it enters no group. *)
Definition place (groups : list (string * list nat)) (r : nat * option string)
  : list (string * list nat) :=
  match snd r with
  | Some k => add_row k (fst r) groups
  | None => groups
  end.

Definition group_rows (keys : list (option string)) : list (string * list nat) :=
  fold_left place (combine (seq 0 (length keys)) keys) [].

(** The row positions that a grouping holds, group after group. *)
Definition positions (groups : list (string * list nat)) : list nat :=
  concat (map snd groups).

Definition has_key (r : nat * option string) : bool :=
  match snd r with
  | Some _ => true
  | None => false
  end.

(** The outcome of a cell of the notebook: its value, or the [ValueError]
    that it, or a cell it depends on, has raised. *)
Inductive result (A : Type) : Type :=
| Ok (a : A)
| ValueError.
Arguments Ok {A} a.
Arguments ValueError {A}.

(** A [SeriesGroupBy]: the grouped series and its grouping. *)
Record SeriesGroupBy (T : Type) : Type := {
  obj : list T;
  grouper : list (string * list nat)
}.
Arguments obj {T} _.
Arguments grouper {T} _.

Section Summary.

Context {T : Type} {N : Numeric T}.

Definition groupby (x : list T) (by_ : list (option string)) : SeriesGroupBy T :=
  {| obj := x; grouper := group_rows by_ |}.

(** The cells of a group (its positions are rows of the column). *)
Definition take (x : list T) (rows : list nat) : list T :=
  map (fun i => nth i x nan) rows.

(** [SeriesGroupBy.apply(f)], one result per group, labelled by the key. *)
Definition apply {R : Type} (f : list T -> R) (g : SeriesGroupBy T)
  : list (string * R) :=
  map (fun kr => (fst kr, f (take (obj g) (snd kr)))) (grouper g).

(** [dataset_country = dataset['Overall'].groupby(dataset['Country'])] *)
Definition dataset_country (dataset : list (Row T)) : SeriesGroupBy T :=
  groupby (map Overall dataset) (map Country dataset).

(** [dataset_country.apply(get_stats)]: [apply] stacks the dictionaries into
    one series indexed by country and statistic.  The model keeps the rows
    of the series, one per country, each with its four cells. *)
Definition apply_get_stats (dataset : list (Row T)) : list (string * Stats.t T) :=
  apply get_stats (dataset_country dataset).

(** [.unstack()] lays the series out as a table with one row per country
    and the statistics as columns; the layout pandas gives the table is not
    part of the model.  It raises [ValueError] on a series without a row,
    that is when no row of the dataset has a key. *)
Definition unstack {R : Type} (stacked : list (string * R))
  : result (list (string * R)) :=
  match stacked with
  | [] => ValueError
  | _ :: _ => Ok stacked
  end.

(** [stats_country = dataset_country.apply(get_stats).unstack()] *)
Definition stats_country (dataset : list (Row T))
  : result (list (string * Stats.t T)) :=
  unstack (apply_get_stats dataset).

End Summary.

(** * Properties *)

(** ** Facts that hold for every cell arithmetic *)

Section PandasFacts.

Context {T : Type} {N : Numeric T}.

Lemma rescale_to_range_length (a b : T) (x : list T) :
  length (rescale_to_range a b x) = length x.
Proof.
  unfold rescale_to_range, series_add, series_div, scalar_mul, series_sub.
  now rewrite !length_map.
Qed.

Lemma rescale_to_range_map (a b : T) (x : list T) :
  rescale_to_range a b x = map (rescaled a b (series_min x) (series_max x)) x.
Proof.
  unfold rescale_to_range, series_add, series_div, scalar_mul, series_sub.
  now rewrite !map_map.
Qed.

Lemma rescale_to_range_nth (a b : T) (x : list T) (i : nat) :
  nth_error (rescale_to_range a b x) i =
  option_map (rescaled a b (series_min x) (series_max x)) (nth_error x i).
Proof.
  rewrite rescale_to_range_map. apply nth_error_map.
Qed.

Lemma count_fold_shift (x : list T) (n : nat) :
  fold_left (fun n v => if isnull v then n else S n) x n =
  n + series_count x.
Proof.
  unfold series_count. revert n.
  induction x as [|v x IH]; intro n; simpl.
  - lia.
  - rewrite IH, (IH (if isnull v then 0 else 1)).
    destruct (isnull v); lia.
Qed.

Lemma series_count_cons (v : T) (x : list T) :
  series_count (v :: x) = (if isnull v then 0 else 1) + series_count x.
Proof.
  unfold series_count at 1. simpl. rewrite count_fold_shift.
  now destruct (isnull v).
Qed.

Lemma series_count_app (x y : list T) :
  series_count (x ++ y) = series_count x + series_count y.
Proof.
  induction x as [|v x IH]; simpl.
  - reflexivity.
  - rewrite !series_count_cons, IH. lia.
Qed.

Lemma series_count_filter (x : list T) :
  series_count x = length (filter notnull x).
Proof.
  induction x as [|v x IH].
  - reflexivity.
  - rewrite series_count_cons, IH. unfold notnull. simpl.
    now destruct (isnull v).
Qed.

Lemma series_count_all_null (x : list T) :
  Forall (fun v => isnull v = true) x -> series_count x = 0.
Proof.
  induction 1 as [|v x Hv _ IH].
  - reflexivity.
  - now rewrite series_count_cons, Hv, IH.
Qed.

Lemma pick_all_null (better : T -> T -> bool) (x : list T) (acc : T) :
  Forall (fun v => isnull v = true) x -> fold_left (pick better) x acc = acc.
Proof.
  intro H. revert acc.
  induction H as [|v x Hv _ IH]; intro acc; simpl.
  - reflexivity.
  - rewrite IH. unfold pick. now rewrite Hv.
Qed.

(** A fold of [pick] returns its start or a cell of the column. *)
Lemma fold_pick_member (better : T -> T -> bool) (x : list T) (acc : T) :
  fold_left (pick better) x acc = acc \/ In (fold_left (pick better) x acc) x.
Proof.
  revert acc. induction x as [|v x IH]; intro acc; simpl.
  - now left.
  - destruct (IH (pick better acc v)) as [E|Hin]; [|now right; right].
    rewrite E. unfold pick.
    destruct (isnull v); [now left|].
    destruct (isnull acc); [now right; left|].
    destruct (better v acc); [now right; left|now left].
Qed.

End PandasFacts.

(** ** The grouping *)

Lemma add_row_positions (k : string) (i : nat) (groups : list (string * list nat)) :
  Permutation (positions (add_row k i groups)) (i :: positions groups).
Proof.
  unfold positions.
  induction groups as [|[k' rows] rest IH]; simpl.
  - reflexivity.
  - destruct (String.compare k k'); simpl.
    + rewrite <- app_assoc. simpl.
      symmetry. apply Permutation_middle.
    + reflexivity.
    + rewrite IH. symmetry. apply Permutation_middle.
Qed.

(** A row enters the group of its own key, and no other row moves. *)
Lemma add_row_member (k : string) (i : nat) (groups : list (string * list nat))
      (k' : string) (rows : list nat) (j : nat) :
  In (k', rows) (add_row k i groups) -> In j rows ->
  (j = i /\ k' = k) \/ (exists rows0, In (k', rows0) groups /\ In j rows0).
Proof.
  induction groups as [|[k0 rows0] rest IH]; simpl.
  - intros [E|[]] Hj. inversion E; subst. destruct Hj as [<-|[]]. now left.
  - destruct (String.compare k k0) eqn:Hc; simpl.
    + intros [E|Hin] Hj.
      * inversion E; subst. apply in_app_or in Hj. destruct Hj as [Hj|[<-|[]]].
        -- right. exists rows0. auto.
        -- left. split; [reflexivity|]. symmetry. now apply String.compare_eq_iff.
      * right. exists rows. auto.
    + intros [E|[E|Hin]] Hj.
      * inversion E; subst. destruct Hj as [<-|[]]. now left.
      * inversion E; subst. right. exists rows. auto.
      * right. exists rows. auto.
    + intros [E|Hin] Hj.
      * inversion E; subst. right. exists rows. auto.
      * destruct (IH Hin Hj) as [?|[rows1 [? ?]]]; [now left|].
        right. exists rows1. auto.
Qed.

Lemma place_all_positions (rs : list (nat * option string))
      (groups : list (string * list nat)) :
  Permutation (positions (fold_left place rs groups))
              (positions groups ++ map fst (filter has_key rs)).
Proof.
  revert groups.
  induction rs as [|[i [k|]] rs IH]; intro groups; simpl.
  - now rewrite app_nil_r.
  - rewrite IH. unfold place at 1, has_key at 2. simpl.
    rewrite add_row_positions. simpl.
    apply Permutation_middle.
  - rewrite IH. reflexivity.
Qed.

Lemma place_all_member (rs : list (nat * option string))
      (groups : list (string * list nat)) (k : string) (rows : list nat) (j : nat) :
  In (k, rows) (fold_left place rs groups) -> In j rows ->
  In (j, Some k) rs \/ (exists rows0, In (k, rows0) groups /\ In j rows0).
Proof.
  revert groups.
  induction rs as [|[i [k0|]] rs IH]; intros groups Hin Hj; simpl in *.
  - right. exists rows. auto.
  - destruct (IH _ Hin Hj) as [?|[rows0 [Hin0 Hj0]]]; [auto|].
    unfold place in Hin0. simpl in Hin0.
    destruct (add_row_member _ _ _ _ _ _ Hin0 Hj0) as [[-> ->]|?]; auto.
  - destruct (IH _ Hin Hj) as [?|?]; auto.
Qed.

Lemma in_combine_seq {A : Type} (l : list A) (s i : nat) (v : A) :
  In (i, v) (combine (seq s (length l)) l) <->
  s <= i /\ nth_error l (i - s) = Some v.
Proof.
  revert s.
  induction l as [|a l IH]; intro s; simpl.
  - split; [intros []|]. intros [_ H]. now destruct (i - s).
  - rewrite IH. split.
    + intros [E|[Hle Hn]].
      * inversion E; subst. rewrite Nat.sub_diag. auto.
      * split; [lia|]. replace (i - s) with (S (i - S s)) by lia. exact Hn.
    + intros [Hle Hn].
      destruct (i - s) as [|d] eqn:Hd.
      * left. simpl in Hn. inversion Hn. f_equal. lia.
      * right. split; [lia|]. simpl in Hn. now replace (i - S s) with d by lia.
Qed.

Lemma map_fst_combine_seq {A : Type} (l : list A) (s : nat) :
  map fst (combine (seq s (length l)) l) = seq s (length l).
Proof.
  revert s. induction l as [|a l IH]; intro s; simpl.
  - reflexivity.
  - now rewrite IH.
Qed.

Lemma keyed_positions_NoDup (rs : list (nat * option string)) :
  NoDup (map fst rs) -> NoDup (map fst (filter has_key rs)).
Proof.
  intro H. induction rs as [|r rs IH]; simpl in *.
  - constructor.
  - apply NoDup_cons_iff in H. destruct H as [Hn Hd].
    destruct (has_key r); simpl; [|now apply IH].
    apply NoDup_cons_iff. split; [|now apply IH].
    intro Hin. apply Hn. apply in_map_iff in Hin.
    destruct Hin as [r' [E Hr']]. rewrite <- E.
    apply in_map. apply filter_In in Hr'. tauto.
Qed.

(** The rows that carry a key, in the grouping of a key column. *)
Lemma group_rows_positions (keys : list (option string)) (i : nat) :
  In i (positions (group_rows keys)) <->
  exists k, nth_error keys i = Some (Some k).
Proof.
  unfold group_rows.
  pose proof (place_all_positions (combine (seq 0 (length keys)) keys) []) as P.
  simpl in P. split.
  - intro Hi. apply (Permutation_in _ P) in Hi.
    apply in_map_iff in Hi.
    destruct Hi as [[j [k|]] [Hj Hin]]; simpl in Hj; subst;
      apply filter_In in Hin; destruct Hin as [Hin Hk]; [|discriminate].
    apply in_combine_seq in Hin. rewrite Nat.sub_0_r in Hin.
    exists k. tauto.
  - intros [k Hk]. apply (Permutation_in _ (Permutation_sym P)).
    apply in_map_iff. exists (i, Some k). split; [reflexivity|].
    apply filter_In. split; [|reflexivity].
    apply in_combine_seq. rewrite Nat.sub_0_r. split; [lia|exact Hk].
Qed.

Lemma group_rows_NoDup (keys : list (option string)) :
  NoDup (positions (group_rows keys)).
Proof.
  unfold group_rows.
  apply (Permutation_NoDup (Permutation_sym (place_all_positions _ []))).
  simpl. apply keyed_positions_NoDup.
  rewrite map_fst_combine_seq. apply seq_NoDup.
Qed.

Lemma group_rows_key (keys : list (option string)) (k : string)
      (rows : list nat) (i : nat) :
  In (k, rows) (group_rows keys) -> In i rows ->
  nth_error keys i = Some (Some k).
Proof.
  intros Hin Hi.
  destruct (place_all_member _ _ _ _ _ Hin Hi) as [H|[? [[] _]]].
  apply in_combine_seq in H. now rewrite Nat.sub_0_r in H.
Qed.

(** Two groups that share a row are the same group. *)
Lemma NoDup_concat_unique {A : Type} (ls : list (list A)) (j j' : nat)
      (l l' : list A) (a : A) :
  NoDup (concat ls) ->
  nth_error ls j = Some l -> nth_error ls j' = Some l' ->
  In a l -> In a l' -> j = j'.
Proof.
  revert j j'.
  induction ls as [|l0 ls IH]; intros j j' Hnd Hj Hj' Ha Ha'.
  - now destruct j.
  - simpl in Hnd.
    assert (Hsplit : NoDup l0 /\ NoDup (concat ls) /\
                     forall x, In x l0 -> ~ In x (concat ls)).
    { clear - Hnd. induction l0 as [|b l0 IHl]; simpl in *.
      - repeat split; [constructor|assumption|auto].
      - inversion Hnd as [|? ? Hn Hd]; subst.
        destruct (IHl Hd) as [H1 [H2 H3]].
        repeat split; auto.
        + constructor; auto. intro Hb. apply Hn. apply in_or_app. auto.
        + intros x [->|Hx]; auto. intro Hc. apply Hn. apply in_or_app. auto. }
    destruct Hsplit as [_ [Hls Hdisj]].
    assert (Hin : forall n l1, nth_error ls n = Some l1 -> In a l1 ->
                               In a (concat ls)).
    { intros n l1 Hn Hl1. apply in_concat. exists l1.
      split; [eapply nth_error_In; eauto|assumption]. }
    destruct j as [|j], j' as [|j']; simpl in Hj, Hj'.
    + reflexivity.
    + inversion Hj; subst. exfalso. eapply Hdisj; eauto.
    + inversion Hj'; subst. exfalso. eapply Hdisj; eauto.
    + f_equal. eapply IH; eauto.
Qed.

(** ** Exact cells: the order and the extrema *)

Module ExactOrder.

Import Exact.

Lemma leb_Fin (p q : Qc) : leb (Fin p) (Fin q) = true <-> (p <= q)%Qc.
Proof.
  simpl. rewrite Qcle_alt. destruct (p ?= q)%Qc; split; congruence.
Qed.

Lemma ltb_Fin (p q : Qc) : ltb (Fin p) (Fin q) = true <-> (p < q)%Qc.
Proof.
  simpl. rewrite Qclt_alt. destruct (p ?= q)%Qc; split; congruence.
Qed.

Lemma leb_refl (v : xnum) : is_nan v = false -> leb v v = true.
Proof.
  destruct v; simpl; try congruence. intros _.
  apply leb_Fin. apply Qcle_refl.
Qed.

Lemma leb_trans (u v w : xnum) :
  leb u v = true -> leb v w = true -> leb u w = true.
Proof.
  destruct u as [p| | |], v as [q| | |], w as [r| | |];
    try (simpl; congruence).
  rewrite !leb_Fin. apply Qcle_trans.
Qed.

Lemma ltb_leb (u v : xnum) : ltb u v = true -> leb u v = true.
Proof.
  destruct u as [p| | |], v as [q| | |]; try (simpl; congruence).
  rewrite ltb_Fin, leb_Fin. apply Qclt_le_weak.
Qed.

Lemma not_ltb_leb (u v : xnum) :
  is_nan u = false -> is_nan v = false -> ltb u v = false -> leb v u = true.
Proof.
  destruct u as [p| | |], v as [q| | |]; try (simpl; congruence).
  intros _ _ H. apply leb_Fin. apply Qcnot_lt_le.
  intro Hlt. apply ltb_Fin in Hlt. congruence.
Qed.

(** The extremum a fold of [pick] leaves, for any order that [better]
    decides. *)
Section Extremum.

Variable better : xnum -> xnum -> bool.
Variable le : xnum -> xnum -> bool.
Hypothesis le_trans : forall u v w, le u v = true -> le v w = true -> le u w = true.
Hypothesis better_le : forall v acc,
  is_nan v = false -> is_nan acc = false ->
  if better v acc then le v acc = true else le acc v = true.

Lemma fold_pick_extremum (x : list xnum) (acc : xnum) :
  is_nan acc = false \/ Exists (fun v => is_nan v = false) x ->
  let r := fold_left (pick better) x acc in
  is_nan r = false /\
  (r = acc \/ In r x) /\
  (is_nan acc = false -> r = acc \/ le r acc = true) /\
  (forall v, In v x -> is_nan v = false -> r = v \/ le r v = true).
Proof.
  revert acc.
  induction x as [|v x IH]; intros acc H; simpl.
  - destruct H as [H|H]; [|inversion H].
    split; [exact H|]. split; [now left|]. split; [now left|]. intros v [].
  - assert (Hp : pick better acc v =
                 if is_nan v then acc
                 else if is_nan acc then v
                 else if better v acc then v else acc) by reflexivity.
    rewrite Hp. clear Hp.
    destruct (is_nan v) eqn:Hv.
    + destruct (IH acc) as [R1 [R2 [R3 R4]]].
      { destruct H as [H|H]; [now left|]. right.
        inversion H; subst; [congruence|assumption]. }
      split; [exact R1|]. split; [tauto|]. split; [exact R3|].
      intros u [<-|Hu] Hn; [congruence|auto].
    + destruct (is_nan acc) eqn:Ha.
      * destruct (IH v (or_introl Hv)) as [R1 [R2 [R3 R4]]].
        split; [exact R1|]. split; [|split; [congruence|]].
        -- destruct R2 as [->|?]; auto.
        -- intros u [<-|Hu] Hn; auto.
      * pose proof (better_le v acc Hv Ha) as Hb.
        destruct (better v acc).
        -- destruct (IH v (or_introl Hv)) as [R1 [R2 [R3 R4]]].
           split; [exact R1|]. split; [|split].
           ++ destruct R2 as [->|?]; auto.
           ++ intros _. right. destruct (R3 Hv) as [->|R]; eauto.
           ++ intros u [<-|Hu] Hn; auto.
        -- destruct (IH acc (or_introl Ha)) as [R1 [R2 [R3 R4]]].
           split; [exact R1|]. split; [tauto|].
           split; [intros _; exact (R3 Ha)|].
           intros u [<-|Hu] Hn; auto.
           right. destruct (R3 Ha) as [->|R]; eauto.
Qed.

End Extremum.

End ExactOrder.

Module ExactSeries.

Import Exact ExactOrder.

Lemma series_min_spec (x : list xnum) :
  Exists (fun v => is_nan v = false) x ->
  is_nan (series_min x) = false /\
  In (series_min x) x /\
  forall v, In v x -> is_nan v = false -> leb (series_min x) v = true.
Proof.
  intro H.
  destruct (fold_pick_extremum ltb leb leb_trans) with (x := x) (acc := NaN)
    as [R1 [R2 [_ R4]]].
  - intros v acc Hv Ha. destruct (ltb v acc) eqn:E.
    + now apply ltb_leb.
    + now apply not_ltb_leb.
  - now right.
  - change (fold_left (pick ltb) x NaN) with (series_min x) in R1, R2, R4.
    split; [exact R1|]. split.
    + destruct R2 as [E|?]; [|assumption]. rewrite E in R1. discriminate.
    + intros v Hv Hn. destruct (R4 v Hv Hn) as [E|?]; [|assumption].
      rewrite E. now apply leb_refl.
Qed.

Lemma series_max_spec (x : list xnum) :
  Exists (fun v => is_nan v = false) x ->
  is_nan (series_max x) = false /\
  In (series_max x) x /\
  forall v, In v x -> is_nan v = false -> leb v (series_max x) = true.
Proof.
  intro H.
  destruct (fold_pick_extremum (fun v acc => ltb acc v) (fun u v => leb v u))
    with (x := x) (acc := NaN) as [R1 [R2 [_ R4]]].
  - intros u v w Huv Hvw. exact (leb_trans _ _ _ Hvw Huv).
  - intros v acc Hv Ha. destruct (ltb acc v) eqn:E.
    + now apply ltb_leb.
    + now apply not_ltb_leb.
  - now right.
  - change (fold_left (pick (fun v acc => ltb acc v)) x NaN)
      with (series_max x) in R1, R2, R4.
    split; [exact R1|]. split.
    + destruct R2 as [E|?]; [|assumption]. rewrite E in R1. discriminate.
    + intros v Hv Hn. destruct (R4 v Hv Hn) as [E|?]; [|assumption].
      rewrite E. now apply leb_refl.
Qed.

(** A column of finite cells has finite extrema. *)
Lemma finite_not_nan (v : xnum) : finite v = true -> is_nan v = false.
Proof. now destruct v. Qed.

Lemma finite_inv (v : xnum) : finite v = true -> exists q, v = Fin q.
Proof. destruct v; try discriminate. eauto. Qed.

Lemma Forall_finite_Exists (x : list xnum) (v : xnum) :
  Forall (fun v => finite v = true) x -> In v x ->
  Exists (fun v => is_nan v = false) x.
Proof.
  intros Hf Hin. apply Exists_exists. exists v. split; [assumption|].
  apply finite_not_nan. rewrite Forall_forall in Hf. auto.
Qed.

End ExactSeries.

(** ** Exact cells: the rescaling formula on rationals *)

Module ExactFormula.

Local Open Scope Qc_scope.

(** The formula of [rescale_to_range] at one finite cell. *)
Definition qresc (a b lo hi v : Qc) : Qc :=
  ((b - a) * (v - lo)) / (hi - lo) + a.

Lemma Qcmult_nonneg (x y : Qc) : 0 <= x -> 0 <= y -> 0 <= x * y.
Proof.
  intros Hx Hy. rewrite <- (Qcmult_0_l y). now apply Qcmult_le_compat_r.
Qed.

Lemma Qcmult_pos (x y : Qc) : 0 < x -> 0 < y -> 0 < x * y.
Proof.
  intros Hx Hy. rewrite <- (Qcmult_0_l y). now apply Qcmult_lt_compat_r.
Qed.

Lemma Qcinv_pos (d : Qc) : 0 < d -> 0 < / d.
Proof.
  unfold Qclt. intro H. simpl. rewrite Qred_correct.
  now apply Qinv_lt_0_compat.
Qed.

Lemma Qcminus_pos (x y : Qc) : x < y <-> 0 < y - x.
Proof. apply Qclt_minus_iff. Qed.

Lemma Qcminus_nonneg (x y : Qc) : x <= y <-> 0 <= y - x.
Proof. apply Qcle_minus_iff. Qed.

Lemma Qcminus_neq (x y : Qc) : x <> y -> y - x <> 0.
Proof.
  intros H E. apply H. symmetry.
  rewrite <- (Qcplus_0_l x), <- E. ring.
Qed.

Lemma qresc_lo (a b lo hi : Qc) : lo <> hi -> qresc a b lo hi lo = a.
Proof.
  intro H. unfold qresc. field. now apply Qcminus_neq.
Qed.

Lemma qresc_hi (a b lo hi : Qc) : lo <> hi -> qresc a b lo hi hi = b.
Proof.
  intro H. unfold qresc. field. now apply Qcminus_neq.
Qed.

Lemma qresc_id (a b v : Qc) : a <> b -> qresc a b a b v = v.
Proof.
  intro H. unfold qresc. field. now apply Qcminus_neq.
Qed.

Lemma qresc_bounds (a b lo hi v : Qc) :
  a <= b -> lo < hi -> lo <= v -> v <= hi ->
  a <= qresc a b lo hi v /\ qresc a b lo hi v <= b.
Proof.
  intros Hab Hd Hlo Hhi.
  assert (Hne : hi - lo <> 0) by (apply Qcminus_neq; now apply Qclt_not_eq).
  pose proof (Qcinv_pos _ (proj1 (Qcminus_pos _ _) Hd)) as Hinv.
  apply Qclt_le_weak in Hinv.
  apply Qcminus_nonneg in Hab, Hlo, Hhi.
  split; apply Qcminus_nonneg.
  - replace (qresc a b lo hi v - a) with ((b - a) * (v - lo) * / (hi - lo))
      by (unfold qresc; field; exact Hne).
    auto using Qcmult_nonneg.
  - replace (b - qresc a b lo hi v) with ((b - a) * (hi - v) * / (hi - lo))
      by (unfold qresc; field; exact Hne).
    auto using Qcmult_nonneg.
Qed.

Lemma qresc_lt (a b lo hi u v : Qc) :
  a < b -> lo < hi -> u < v -> qresc a b lo hi u < qresc a b lo hi v.
Proof.
  intros Hab Hd Huv.
  assert (Hne : hi - lo <> 0) by (apply Qcminus_neq; now apply Qclt_not_eq).
  pose proof (Qcinv_pos _ (proj1 (Qcminus_pos _ _) Hd)) as Hinv.
  apply Qcminus_pos in Hab, Huv.
  apply Qcminus_pos.
  replace (qresc a b lo hi v - qresc a b lo hi u)
    with ((b - a) * (v - u) * / (hi - lo))
    by (unfold qresc; field; exact Hne).
  auto using Qcmult_pos.
Qed.

End ExactFormula.

(** ** Exact cells: rescaling a column *)

Module ExactRescale.

Import Exact ExactOrder ExactSeries ExactFormula.

Lemma sign_pos (q : Qc) : (0 < q)%Qc -> sign q = Gt.
Proof.
  intro H. unfold sign. now apply Qcgt_alt.
Qed.

Lemma sign_nonzero (q : Qc) : q <> 0%Qc -> sign q <> Eq.
Proof.
  intros H E. apply H. now apply Qceq_alt.
Qed.

Lemma rescaled_Fin (a b lo hi v : Qc) :
  lo <> hi ->
  rescaled (Fin a) (Fin b) (Fin lo) (Fin hi) (Fin v) = Fin (qresc a b lo hi v).
Proof.
  intro H. unfold rescaled. simpl.
  pose proof (sign_nonzero _ (Qcminus_neq _ _ H)) as Hs.
  change (hi + - lo)%Qc with (hi - lo)%Qc.
  destruct (sign (hi - lo)); [congruence| |]; reflexivity.
Qed.

Lemma rescaled_NaN (a b lo hi : xnum) : rescaled a b lo hi NaN = NaN.
Proof.
  unfold rescaled. simpl.
  destruct (sub b a); reflexivity.
Qed.

Lemma all_null_or_valid (x : list xnum) :
  Forall (fun v => isnull v = true) x \/ Exists (fun v => is_nan v = false) x.
Proof.
  induction x as [|v x [IH|IH]].
  - left. constructor.
  - destruct (is_nan v) eqn:E.
    + left. constructor; assumption.
    + right. now constructor.
  - right. now constructor 2.
Qed.

Lemma series_min_valid (x : list xnum) (m : Qc) :
  series_min x = Fin m -> Exists (fun v => is_nan v = false) x.
Proof.
  intro H. destruct (all_null_or_valid x) as [Hn|?]; [|assumption].
  unfold series_min in H. rewrite (pick_all_null _ _ _ Hn) in H. discriminate.
Qed.

(** The extrema of a column whose valid cells are finite. *)
Lemma extrema_Fin (x : list xnum) :
  Forall (fun v => finite_or_null v = true) x ->
  Exists (fun v => is_nan v = false) x ->
  exists lo hi,
    series_min x = Fin lo /\ series_max x = Fin hi /\
    (forall q, In (Fin q) x -> (lo <= q)%Qc /\ (q <= hi)%Qc).
Proof.
  intros Hf Hv. rewrite Forall_forall in Hf.
  destruct (series_min_spec x Hv) as [Hn1 [Hin1 Hle1]].
  destruct (series_max_spec x Hv) as [Hn2 [Hin2 Hle2]].
  pose proof (Hf _ Hin1) as F1. pose proof (Hf _ Hin2) as F2.
  destruct (series_min x) as [lo| | |]; try discriminate.
  destruct (series_max x) as [hi| | |]; try discriminate.
  exists lo, hi. repeat split; try reflexivity.
  - apply leb_Fin. now apply Hle1.
  - apply leb_Fin. now apply Hle2.
Qed.

Lemma distinct_extrema (x : list xnum) (lo hi : Qc) :
  Forall (fun v => finite v = true) x ->
  (exists u v, In u x /\ In v x /\ u <> v) ->
  (forall q, In (Fin q) x -> (lo <= q)%Qc /\ (q <= hi)%Qc) ->
  (lo < hi)%Qc.
Proof.
  intros Hf [u [v [Hu [Hv Hne]]]] Hb. rewrite Forall_forall in Hf.
  destruct (finite_inv _ (Hf _ Hu)) as [p ->].
  destruct (finite_inv _ (Hf _ Hv)) as [q ->].
  destruct (Hb _ Hu) as [H1 H2], (Hb _ Hv) as [H3 H4].
  destruct (Qcle_lt_or_eq lo hi) as [?|E]; [eapply Qcle_trans; eauto|assumption|].
  subst hi. exfalso. apply Hne. f_equal.
  apply Qcle_antisym; eapply Qcle_trans; eauto.
Qed.

End ExactRescale.

(** ** Binary64 cells: facts from the specification of the operations *)

Module Binary64Spec.

Definition zero_or_nan (s : spec_float) : Prop :=
  match s with
  | S754_zero _ | S754_nan => True
  | _ => False
  end.

Definition pzero_or_nan (s : spec_float) : Prop :=
  match s with
  | S754_zero false | S754_nan => True
  | _ => False
  end.

Lemma of_spec_nan (x : float) : Prim2SF x = S754_nan -> x = PrimFloat.nan.
Proof. intro H. apply Prim2SF_inj. now rewrite H. Qed.

Lemma SF64sub_diag (s : spec_float) : pzero_or_nan (SF64sub s s).
Proof.
  destruct s as [[|]|[|]| |sx m e]; simpl; auto.
  unfold SF64sub, SFsub. cbv zeta. rewrite Z.sub_diag. exact I.
Qed.

Lemma SF64sub_nan_r (s : spec_float) : SF64sub s S754_nan = S754_nan.
Proof. now destruct s. Qed.

Lemma SF64mul_zero (c z : spec_float) :
  pzero_or_nan z -> zero_or_nan (SF64mul c z).
Proof.
  destruct z as [[|]|[|]| |sx m e]; simpl; try tauto; intros _;
    destruct c; simpl; auto.
Qed.

Lemma SF64div_zero (n d : spec_float) :
  zero_or_nan n -> pzero_or_nan d -> SF64div n d = S754_nan.
Proof.
  destruct n as [s|s| |sx m e]; simpl; try tauto; intros _;
    destruct d as [[|]|[|]| |sy m' e']; simpl; tauto.
Qed.

(** With both extrema equal to the cell or NaN, the rescaled cell is NaN:
    the numerator is a zero or NaN, the denominator is [+0] or NaN. *)
Lemma rescaled_degenerate (a b lo hi v : float) :
  lo = v \/ lo = PrimFloat.nan -> hi = v \/ hi = PrimFloat.nan ->
  rescaled a b lo hi v = PrimFloat.nan.
Proof.
  intros Hlo Hhi. apply of_spec_nan. unfold rescaled. simpl.
  rewrite add_spec, div_spec, mul_spec, !sub_spec.
  assert (Hnum : pzero_or_nan (SF64sub (Prim2SF v) (Prim2SF lo))).
  { destruct Hlo as [->| ->]; [apply SF64sub_diag|].
    change (Prim2SF PrimFloat.nan) with S754_nan.
    now rewrite SF64sub_nan_r. }
  assert (Hden : pzero_or_nan (SF64sub (Prim2SF hi) (Prim2SF lo))).
  { destruct Hlo as [->| ->], Hhi as [->| ->];
      change (Prim2SF PrimFloat.nan) with S754_nan;
      try apply SF64sub_diag; now rewrite ?SF64sub_nan_r. }
  now rewrite (SF64div_zero _ _ (SF64mul_zero _ _ Hnum) Hden).
Qed.


(** *** Division by one and addition to zero

    A valid finite float has a canonical mantissa; dividing it by [1] gives
    a quotient that is exact, and rounding leaves it as it is. *)

Local Open Scope Z_scope.







Lemma SFeqb_refl (x : spec_float) : x <> S754_nan -> SFeqb x x = true.
Proof.
  destruct x as [s|s| |s m e]; intro H; try congruence;
    unfold SFeqb, SFcompare.
  - reflexivity.
  - now destruct s.
  - rewrite Z.compare_refl.
    assert (E : Pos.compare_cont Eq m m = Eq) by apply Pos.compare_refl.
    rewrite E. now destruct s.
Qed.

Lemma is_nan_spec (v : float) :
  PrimFloat.is_nan v = false -> Prim2SF v <> S754_nan.
Proof.
  unfold PrimFloat.is_nan. rewrite eqb_spec. intros H E.
  rewrite E in H. discriminate.
Qed.


End Binary64Spec.

(** * The rescaler *)

(** ** The extrema in the words of the specification

    The specification speaks of [min(values)] and [max(values)]: a valid
    cell of the column that no valid cell is below, or above.  The code
    computes them with [Series.min()] and [Series.max()], modelled by
    [series_min] and [series_max]. *)
Section Extrema.

Context {T : Type} {N : Numeric T}.

Definition minimum_of (m : T) (x : list T) : Prop :=
  In m x /\ isnull m = false /\
  forall v, In v x -> isnull v = false -> nleb m v = true.

Definition maximum_of (m : T) (x : list T) : Prop :=
  In m x /\ isnull m = false /\
  forall v, In v x -> isnull v = false -> nleb v m = true.

End Extrema.

Module ExactExtrema.

Import Exact ExactOrder ExactSeries.

Lemma leb_antisym (u v : xnum) : leb u v = true -> leb v u = true -> u = v.
Proof.
  destruct u as [p| | |], v as [q| | |]; try discriminate; try reflexivity.
  intros H1 H2. apply leb_Fin in H1, H2. f_equal. now apply Qcle_antisym.
Qed.

Lemma minimum_valid (m : xnum) (x : list xnum) :
  minimum_of m x -> Exists (fun v => is_nan v = false) x.
Proof.
  intros [Hin [Hv _]]. apply Exists_exists. now exists m.
Qed.

(** [Series.min()] returns the minimum of the specification. *)
Lemma series_min_minimum (m : xnum) (x : list xnum) :
  minimum_of m x -> series_min x = m.
Proof.
  intro Hm. pose proof (minimum_valid m x Hm) as Hv.
  destruct Hm as [Hin [Hn Hle]].
  destruct (series_min_spec x Hv) as [Hn' [Hin' Hle']].
  apply leb_antisym; auto.
Qed.

(** [Series.max()] returns the maximum of the specification. *)
Lemma series_max_maximum (m : xnum) (x : list xnum) :
  maximum_of m x -> series_max x = m.
Proof.
  intros [Hin [Hn Hle]].
  assert (Hv : Exists (fun v => is_nan v = false) x)
    by (apply Exists_exists; now exists m).
  destruct (series_max_spec x Hv) as [Hn' [Hin' Hle']].
  apply leb_antisym; auto.
Qed.

(** Between a finite minimum and a finite maximum every valid cell is
    finite. *)
Lemma finite_between (lo hi : Qc) (x : list xnum) :
  minimum_of (Fin lo) x -> maximum_of (Fin hi) x ->
  Forall (fun v => finite_or_null v = true) x.
Proof.
  intros [_ [_ Hlo]] [_ [_ Hhi]]. apply Forall_forall. intros v Hin.
  destruct v as [q| | |]; try reflexivity.
  - specialize (Hhi PInf Hin eq_refl). discriminate.
  - specialize (Hlo NInf Hin eq_refl). discriminate.
Qed.

End ExactExtrema.

(** C1, as the code has it.  In exact arithmetic: with [oldMin] the minimum
    and [oldMax] the maximum of the column, [oldMin <> oldMax], and finite
    bounds [a] and [b], [rescale_to_range a b x] has the length of [x]; every
    cell of [x] is finite or missing; the cell at a finite [x[i]] is
    [a + (b - a) * (x[i] - oldMin) / (oldMax - oldMin)], and the cell at a
    missing one is missing. *)
Theorem rescale_to_range_exact_formula (a b oldMin oldMax : Qc) (x : list xnum) :
  minimum_of (Fin oldMin) x -> maximum_of (Fin oldMax) x ->
  oldMin <> oldMax ->
  length (rescale_to_range (Fin a) (Fin b) x) = length x /\
  Forall (fun v => Exact.finite_or_null v = true) x /\
  (forall i q, nth_error x i = Some (Fin q) ->
     nth_error (rescale_to_range (Fin a) (Fin b) x) i =
     Some (Fin (a + (b - a) * (q - oldMin) / (oldMax - oldMin))%Qc)) /\
  (forall i, nth_error x i = Some NaN ->
     nth_error (rescale_to_range (Fin a) (Fin b) x) i = Some NaN).
Proof.
  intros Hmin Hmax Hne.
  split; [apply rescale_to_range_length|].
  split; [exact (ExactExtrema.finite_between _ _ x Hmin Hmax)|].
  apply ExactExtrema.series_min_minimum in Hmin.
  apply ExactExtrema.series_max_maximum in Hmax.
  split.
  - intros i q Hq. rewrite rescale_to_range_nth, Hq, Hmin, Hmax.
    cbn [option_map]. rewrite (ExactRescale.rescaled_Fin a b oldMin oldMax q Hne).
    unfold ExactFormula.qresc. now rewrite Qcplus_comm.
  - intros i Hi. rewrite rescale_to_range_nth, Hi. cbn [option_map].
    now rewrite ExactRescale.rescaled_NaN.
Qed.

Lemma rescale_to_range_exact_formula_witness :
  let x := [Exact.of_Z 5; NaN; Exact.of_Z 10; Exact.of_Z 15] in
  let a := Q2Qc (inject_Z 0) in
  let b := Q2Qc (inject_Z 100) in
  let lo := Q2Qc (inject_Z 5) in
  let hi := Q2Qc (inject_Z 15) in
  length (rescale_to_range (Fin a) (Fin b) x) = length x /\
  Forall (fun v => Exact.finite_or_null v = true) x /\
  (forall i q, nth_error x i = Some (Fin q) ->
     nth_error (rescale_to_range (Fin a) (Fin b) x) i =
     Some (Fin (a + (b - a) * (q - lo) / (hi - lo))%Qc)) /\
  (forall i, nth_error x i = Some NaN ->
     nth_error (rescale_to_range (Fin a) (Fin b) x) i = Some NaN).
Proof.
  intros x a b lo hi.
  refine (rescale_to_range_exact_formula a b lo hi x _ _ _).
  - split; [left; reflexivity|]. split; [reflexivity|].
    intros v [<-|[<-|[<-|[<-|[]]]]] Hv; try reflexivity; discriminate.
  - split; [right; right; right; left; reflexivity|]. split; [reflexivity|].
    intros v [<-|[<-|[<-|[<-|[]]]]] Hv; try reflexivity; discriminate.
  - intro H. inversion H.
Defined.

(** C1 fails on a column of integers: NumPy computes the product
    [(b - a) * (x - x.min())] in [int64], where [40 * 2^62] wraps around to
    [0], so that the maximum [2^62] of the column [[0, 2^62]] is rescaled
    onto [[10, 50]] as [10.0], whereas the formula gives [50]. *)
Lemma rescale_to_range_int64_wraps :
  let x := [Int64 0; Int64 (2 ^ 62)] in
  minimum_of (Int64 0) x /\ maximum_of (Int64 (2 ^ 62)) x /\
  scalar_mul (nsub (Int64 50) (Int64 10)) (series_sub x (series_min x)) =
    [Int64 0; Int64 0] /\
  rescale_to_range (Int64 10) (Int64 50) x = [Float64 10; Float64 10] /\
  (10 + (50 - 10) * (2 ^ 62 - 0) / (2 ^ 62 - 0) = 50)%Z /\
  nth_error (rescale_to_range (Int64 10) (Int64 50) x) 1 <> Some (Float64 50) /\
  nth_error (rescale_to_range (Int64 10) (Int64 50) x) 1 <> Some (Int64 50).
Proof.
  intro x. split; [|split].
  - split; [left; reflexivity|]. split; [reflexivity|].
    intros v [<-|[<-|[]]] _; reflexivity.
  - split; [right; left; reflexivity|]. split; [reflexivity|].
    intros v [<-|[<-|[]]] _; reflexivity.
  - split; [reflexivity|]. split; [reflexivity|]. split; [reflexivity|].
    split; intro H; vm_compute in H; discriminate.
Qed.

Module RescaleExact.

Import Exact ExactOrder ExactSeries ExactFormula ExactRescale.

(** On a column of finite cells with two distinct values, every cell is
    rescaled by [qresc] between the finite extrema. *)
Lemma rescale_to_range_finite (a b : Qc) (x : list xnum) :
  Forall (fun v => finite_or_null v = true) x ->
  Exists (fun v => is_nan v = false) x ->
  series_min x <> series_max x ->
  exists lo hi,
    series_min x = Fin lo /\ series_max x = Fin hi /\ (lo < hi)%Qc /\
    (forall q, In (Fin q) x -> (lo <= q)%Qc /\ (q <= hi)%Qc) /\
    forall i q, nth_error x i = Some (Fin q) ->
      nth_error (rescale_to_range (Fin a) (Fin b) x) i =
      Some (Fin (qresc a b lo hi q)).
Proof.
  intros Hf Hv Hne.
  destruct (extrema_Fin x Hf Hv) as [lo [hi [Hlo [Hhi Hb]]]].
  assert (Hlt : (lo < hi)%Qc).
  { destruct (series_min_spec x Hv) as [_ [Hin _]]. rewrite Hlo in Hin.
    destruct (Qcle_lt_or_eq lo hi) as [?|E]; [apply (Hb _ Hin)|assumption|].
    exfalso. apply Hne. now rewrite Hlo, Hhi, E. }
  exists lo, hi. repeat split; try assumption; try (now apply Hb).
  intros i q Hq. rewrite rescale_to_range_nth, Hq, Hlo, Hhi. simpl.
  f_equal. apply rescaled_Fin. now apply Qclt_not_eq.
Qed.

Lemma two_values_extrema (x : list xnum) :
  Forall (fun v => finite v = true) x ->
  (exists u v, In u x /\ In v x /\ u <> v) ->
  Forall (fun v => finite_or_null v = true) x /\
  Exists (fun v => is_nan v = false) x /\
  series_min x <> series_max x.
Proof.
  intros Hf Hd.
  assert (Hfn : Forall (fun v => finite_or_null v = true) x).
  { eapply Forall_impl; [|exact Hf]. now intros [| | |]. }
  assert (Hv : Exists (fun v => is_nan v = false) x).
  { destruct Hd as [u [_ [Hu _]]]. eapply Forall_finite_Exists; eauto. }
  repeat split; try assumption.
  destruct (extrema_Fin x Hfn Hv) as [lo [hi [Hlo [Hhi Hb]]]].
  pose proof (distinct_extrema x lo hi Hf Hd Hb) as Hlt.
  rewrite Hlo, Hhi. intro E. inversion E. subst.
  now apply (Qclt_not_eq _ _ Hlt).
Qed.

(** A column of equal cells is rescaled to NaN cells in exact arithmetic
    too: rounding plays no part in it. *)
Lemma rescale_to_range_exact_all_equal (a b : xnum) (x : list xnum) :
  (forall u v, In u x -> In v x -> u = v) ->
  rescale_to_range a b x = map (fun _ => NaN) x.
Proof.
  intro Heq. rewrite rescale_to_range_map.
  apply map_ext_in. intros v Hv.
  assert (Hm : series_min x = NaN \/ series_min x = v).
  { destruct (all_null_or_valid x) as [Hn|Hn].
    - left. unfold series_min. now rewrite (pick_all_null _ _ _ Hn).
    - right. destruct (series_min_spec x Hn) as [_ [Hin _]]. auto. }
  assert (HM : series_max x = NaN \/ series_max x = v).
  { destruct (all_null_or_valid x) as [Hn|Hn].
    - left. unfold series_max. now rewrite (pick_all_null _ _ _ Hn).
    - right. destruct (series_max_spec x Hn) as [_ [Hin _]]. auto. }
  unfold rescaled. simpl.
  assert (Hz : forall w, sub w w = Fin 0%Qc \/ sub w w = NaN).
  { intros [q| | |]; simpl; auto. left. f_equal. apply Qcplus_opp_r. }
  assert (Hmul : forall c z, z = Fin 0%Qc \/ z = NaN ->
                             mul c z = Fin 0%Qc \/ mul c z = NaN).
  { intros c z [->| ->]; destruct c as [q| | |]; simpl; auto.
    left. f_equal. apply Qcmult_0_r. }
  assert (Hdiv : forall n d, n = Fin 0%Qc \/ n = NaN -> d = Fin 0%Qc \/ d = NaN ->
                             div n d = NaN).
  { intros n d [->| ->] [->| ->]; reflexivity. }
  assert (Hsub : sub v (series_min x) = Fin 0%Qc \/
                 sub v (series_min x) = NaN).
  { destruct Hm as [->| ->]; [right; now destruct v|apply Hz]. }
  assert (Hden : sub (series_max x) (series_min x) = Fin 0%Qc \/
                 sub (series_max x) (series_min x) = NaN).
  { destruct Hm as [->| ->], HM as [->| ->]; try apply Hz; right;
      try reflexivity; now destruct v. }
  now rewrite (Hdiv _ _ (Hmul (sub b a) _ Hsub) Hden).
Qed.

End RescaleExact.

(** C2, as the code has it.  In exact arithmetic: for a column of finite
    cells with at least two distinct values and [a <= b], every rescaled cell
    lies in [[a, b]], a cell equal to the minimum is mapped to [a] and a cell
    equal to the maximum to [b]; [rescale_to_range] of [[5, 10, 15]] onto
    [[0, 100]] is [[0, 50, 100]], in exact arithmetic and in binary64. *)
Theorem rescale_to_range_exact_bounds (a b : Qc) (x : list xnum) :
  Forall (fun v => Exact.finite v = true) x ->
  (exists u v, In u x /\ In v x /\ u <> v) ->
  (a <= b)%Qc ->
  let y := rescale_to_range (Fin a) (Fin b) x in
  Forall (fun w => nleb (Fin a) w = true /\ nleb w (Fin b) = true) y /\
  (forall i, nth_error x i = Some (series_min x) ->
             nth_error y i = Some (Fin a)) /\
  (forall i, nth_error x i = Some (series_max x) ->
             nth_error y i = Some (Fin b)) /\
  rescale_to_range (Exact.of_Z 0) (Exact.of_Z 100)
    [Exact.of_Z 5; Exact.of_Z 10; Exact.of_Z 15] =
    [Exact.of_Z 0; Exact.of_Z 50; Exact.of_Z 100] /\
  (rescale_to_range 0 100 [5; 10; 15] = [0; 50; 100])%float.
Proof.
  intros Hf Hd Hab y.
  destruct (RescaleExact.two_values_extrema x Hf Hd) as [Hfn [Hv Hne]].
  destruct (RescaleExact.rescale_to_range_finite a b x Hfn Hv Hne)
    as [lo [hi [Hlo [Hhi [Hlt [Hb Hy]]]]]].
  pose proof (Qclt_not_eq _ _ Hlt) as Hlh.
  fold y in Hy. rewrite Forall_forall in Hf.
  split; [|split; [|split; [|split]]].
  - apply Forall_forall. intros w Hw.
    destruct (In_nth_error _ _ Hw) as [i Hi].
    pose proof Hi as Hi'. unfold y in Hi'.
    rewrite rescale_to_range_nth in Hi'.
    destruct (nth_error x i) as [v|] eqn:Hx; [|discriminate].
    destruct (ExactSeries.finite_inv v (Hf v (nth_error_In _ _ Hx))) as [q ->].
    rewrite (Hy i q Hx) in Hi. inversion Hi; subst w.
    destruct (Hb q (nth_error_In _ _ Hx)) as [H1 H2].
    destruct (ExactFormula.qresc_bounds a b lo hi q Hab Hlt H1 H2).
    split; now apply ExactOrder.leb_Fin.
  - intros i Hi. rewrite Hlo in Hi. rewrite (Hy i lo Hi).
    now rewrite ExactFormula.qresc_lo.
  - intros i Hi. rewrite Hhi in Hi. rewrite (Hy i hi Hi).
    now rewrite ExactFormula.qresc_hi.
  - vm_compute. repeat f_equal; apply Qc_is_canon; reflexivity.
  - reflexivity.
Qed.

Lemma rescale_to_range_exact_bounds_witness :
  let x := [Exact.of_Z 5; Exact.of_Z 10; Exact.of_Z 15] in
  Forall (fun w => nleb (Exact.of_Z 0) w = true /\
                   nleb w (Exact.of_Z 100) = true)
         (rescale_to_range (Exact.of_Z 0) (Exact.of_Z 100) x).
Proof.
  refine (proj1 (rescale_to_range_exact_bounds
                   (Q2Qc (inject_Z 0)) (Q2Qc (inject_Z 100))
                   [Exact.of_Z 5; Exact.of_Z 10; Exact.of_Z 15] _ _ _)).
  - repeat constructor.
  - exists (Exact.of_Z 5), (Exact.of_Z 10).
    split; [simpl; auto|]. split; [simpl; auto|].
    intro H. inversion H.
  - vm_compute. discriminate.
Defined.

(** C2 fails in binary64: [0 <= 0.1] and the column [[0, 3]] has two
    distinct values, yet its maximum is mapped to [0.10000000000000002],
    above [0.1]. *)
Lemma rescale_to_range_binary64_overshoot :
  let a := 0%float in
  let b := 0x1.999999999999ap-4%float in
  let x := [0; 3]%float in
  nleb a b = true /\
  series_max x = 3%float /\
  nth_error (rescale_to_range a b x) 1 = Some 0x1.999999999999bp-4%float /\
  nleb 0x1.999999999999bp-4%float b = false /\
  ~ Forall (fun w => nleb a w = true /\ nleb w b = true)
      (rescale_to_range a b x).
Proof.
  repeat split.
  intro H. inversion H as [|? ? _ H1]; subst.
  inversion H1 as [|? ? [_ H2] _]; subst.
  vm_compute in H2. discriminate.
Qed.

(** C3, as the code has it.  In exact arithmetic, for a column whose valid
    cells are finite and [a < b], the rescaling is strictly increasing:
    [x[i] < x[j]] implies [y[i] < y[j]]. *)
Theorem rescale_to_range_exact_monotone (a b : Qc) (x : list xnum) :
  Forall (fun v => Exact.finite_or_null v = true) x ->
  (a < b)%Qc ->
  forall i j u v,
    nth_error x i = Some u -> nth_error x j = Some v -> nltb u v = true ->
    exists u' v',
      nth_error (rescale_to_range (Fin a) (Fin b) x) i = Some u' /\
      nth_error (rescale_to_range (Fin a) (Fin b) x) j = Some v' /\
      nltb u' v' = true.
Proof.
  intros Hf Hab i j u v Hu Hv Huv.
  pose proof (nth_error_In _ _ Hu) as Iu.
  pose proof (nth_error_In _ _ Hv) as Iv.
  rewrite Forall_forall in Hf.
  pose proof (Hf u Iu) as Fu. pose proof (Hf v Iv) as Fv.
  destruct u as [p| | |], v as [q| | |]; try discriminate.
  apply ExactOrder.ltb_Fin in Huv.
  assert (Hval : Exists (fun v => Exact.is_nan v = false) x).
  { apply Exists_exists. exists (Fin p). auto. }
  assert (Hne : series_min x <> series_max x).
  { destruct (ExactRescale.extrema_Fin x (proj2 (Forall_forall _ _) Hf) Hval)
      as [lo [hi [Hlo [Hhi Hb]]]].
    rewrite Hlo, Hhi. intro E. inversion E; subst hi.
    destruct (Hb p Iu) as [H1 H2], (Hb q Iv) as [H3 H4].
    apply (Qclt_not_le _ _ Huv). eapply Qcle_trans; eauto. }
  destruct (RescaleExact.rescale_to_range_finite a b x
              (proj2 (Forall_forall _ _) Hf) Hval Hne)
    as [lo [hi [_ [_ [Hlt [_ Hy]]]]]].
  exists (Fin (ExactFormula.qresc a b lo hi p)),
         (Fin (ExactFormula.qresc a b lo hi q)).
  split; [now apply Hy|]. split; [now apply Hy|].
  apply ExactOrder.ltb_Fin. now apply ExactFormula.qresc_lt.
Qed.

Lemma rescale_to_range_exact_monotone_witness :
  exists u' v',
    nth_error (rescale_to_range (Exact.of_Z 10) (Exact.of_Z 50)
                 [Exact.of_Z 0; Exact.of_Z 1; NaN; Exact.of_Z 4]) 0 = Some u' /\
    nth_error (rescale_to_range (Exact.of_Z 10) (Exact.of_Z 50)
                 [Exact.of_Z 0; Exact.of_Z 1; NaN; Exact.of_Z 4]) 1 = Some v' /\
    nltb u' v' = true.
Proof.
  refine (rescale_to_range_exact_monotone
            (Q2Qc (inject_Z 10)) (Q2Qc (inject_Z 50))
            [Exact.of_Z 0; Exact.of_Z 1; NaN; Exact.of_Z 4] _ _
            0 1 (Exact.of_Z 0) (Exact.of_Z 1) eq_refl eq_refl eq_refl).
  - repeat constructor.
  - vm_compute. reflexivity.
Defined.

(** C3 fails in binary64: in the column [[0, 1, 1e17]] rescaled onto
    [[10, 50]], the cells [0] and [1] are both mapped to [10]. *)
Lemma rescale_to_range_binary64_collapse :
  let x := [0; 1; 1e17]%float in
  let y := rescale_to_range 10%float 50%float x in
  nltb 10%float 50%float = true /\
  nltb 0%float 1%float = true /\
  y = [10; 10; 50]%float /\
  ~ (forall i j u v,
        nth_error x i = Some u -> nth_error x j = Some v -> nltb u v = true ->
        exists u' v',
          nth_error y i = Some u' /\ nth_error y j = Some v' /\
          nltb u' v' = true).
Proof.
  split; [reflexivity|]. split; [reflexivity|]. split; [reflexivity|].
  intro H.
  destruct (H 0 1 0%float 1%float eq_refl eq_refl eq_refl)
    as [u' [v' [Hu [Hv Hlt]]]].
  vm_compute in Hu, Hv.
  inversion Hu; subst u'. inversion Hv; subst v'.
  vm_compute in Hlt. discriminate.
Qed.




(** C5, as the code has it.  In exact arithmetic: a column whose minimum
    is [a] and whose maximum is [b], [a <> b], is returned unchanged by the
    rescaling onto [[a, b]], cell for cell (a missing cell stays missing). *)
Theorem rescale_to_range_exact_same_range (a b : Qc) (x : list xnum) :
  a <> b -> minimum_of (Fin a) x -> maximum_of (Fin b) x ->
  rescale_to_range (Fin a) (Fin b) x = x.
Proof.
  intros Hab Hmin Hmax.
  pose proof (ExactExtrema.finite_between a b x Hmin Hmax) as Hfin.
  apply ExactExtrema.series_min_minimum in Hmin.
  apply ExactExtrema.series_max_maximum in Hmax.
  rewrite rescale_to_range_map, Hmin, Hmax.
  rewrite <- (map_id x) at 2. apply map_ext_in. intros v Hin.
  rewrite Forall_forall in Hfin. specialize (Hfin v Hin).
  destruct v as [q| | |]; try discriminate.
  - rewrite ExactRescale.rescaled_Fin by assumption.
    now rewrite ExactFormula.qresc_id.
  - apply ExactRescale.rescaled_NaN.
Qed.

Lemma rescale_to_range_exact_same_range_witness :
  rescale_to_range (Exact.of_Z 10) (Exact.of_Z 50)
    [Exact.of_Z 10; Exact.of_Z 17; NaN; Exact.of_Z 50; Exact.of_Z 23] =
  [Exact.of_Z 10; Exact.of_Z 17; NaN; Exact.of_Z 50; Exact.of_Z 23].
Proof.
  refine (rescale_to_range_exact_same_range
            (Q2Qc (inject_Z 10)) (Q2Qc (inject_Z 50))
            [Exact.of_Z 10; Exact.of_Z 17; NaN; Exact.of_Z 50; Exact.of_Z 23]
            _ _ _).
  - intro H. inversion H.
  - split; [left; reflexivity|]. split; [reflexivity|].
    intros v [<-|[<-|[<-|[<-|[<-|[]]]]]] Hv; try reflexivity; discriminate.
  - split; [right; right; right; left; reflexivity|]. split; [reflexivity|].
    intros v [<-|[<-|[<-|[<-|[<-|[]]]]]] Hv; try reflexivity; discriminate.
Defined.

(** C5 fails in binary64, beyond any tolerance: the column
    [[0, 2^1022, 2^1023]] has the minimum [a = 0] and the maximum
    [b = 2^1023], yet the product [(b - a) * 2^1022] overflows and the
    rescaling onto [[a, b]] returns [[0, inf, inf]]. *)
Lemma rescale_to_range_binary64_overflow :
  let a := 0%float in
  let b := 0x1p+1023%float in
  let x := [0; 0x1p+1022; 0x1p+1023]%float in
  minimum_of a x /\ maximum_of b x /\
  series_min x = a /\ series_max x = b /\
  PrimFloat.eqb a b = false /\
  rescale_to_range a b x = [0; infinity; infinity]%float /\
  rescale_to_range a b x <> x.
Proof.
  intros a b x. split; [|split].
  - split; [left; reflexivity|]. split; [reflexivity|].
    intros v [<-|[<-|[<-|[]]]] _; reflexivity.
  - split; [right; right; left; reflexivity|]. split; [reflexivity|].
    intros v [<-|[<-|[<-|[]]]] _; reflexivity.
  - split; [reflexivity|]. split; [reflexivity|]. split; [reflexivity|].
    split; [reflexivity|].
    intro H. apply (f_equal (fun l => PrimFloat.eqb (nth 1 l 0%float) 0x1p+1022)) in H.
    vm_compute in H. discriminate.
Qed.

(** * The aggregator *)

(** C6, as the code has it.  The groups of [dataset_country] partition the
    rows whose [Country] is not missing: such a row lies in exactly one
    group, the group of its own country; no position occurs twice across
    the groups; and the positions of all the groups together are exactly the
    rows that carry a country.  A row with a missing [Country] is in no
    group. *)
Theorem dataset_country_partition {T : Type} {N : Numeric T}
        (dataset : list (Row T)) :
  let groups := grouper (dataset_country dataset) in
  (forall i row k,
      nth_error dataset i = Some row -> Country row = Some k ->
      exists j rows,
        nth_error groups j = Some (k, rows) /\ In i rows /\
        forall j' g', nth_error groups j' = Some g' -> In i (snd g') -> j' = j) /\
  NoDup (positions groups) /\
  (forall i, In i (positions groups) <->
             exists row k, nth_error dataset i = Some row /\ Country row = Some k).
Proof.
  intro groups.
  assert (Hkey : forall i, (exists k, nth_error (map Country dataset) i = Some (Some k)) <->
                           exists row k, nth_error dataset i = Some row /\
                                         Country row = Some k).
  { intro i. rewrite nth_error_map. split.
    - intros [k Hk]. destruct (nth_error dataset i) as [row|]; [|discriminate].
      exists row, k. split; [reflexivity|]. now inversion Hk.
    - intros [row [k [-> Hk]]]. exists k. simpl. now rewrite Hk. }
  pose proof (group_rows_NoDup (map Country dataset)) as Hnd.
  change (group_rows (map Country dataset)) with groups in Hnd.
  split; [|split; [exact Hnd|]].
  - intros i row k Hrow Hk.
    assert (Hin : In i (positions groups)).
    { apply group_rows_positions. apply Hkey. eauto. }
    unfold positions in Hin. apply in_concat in Hin.
    destruct Hin as [rows [Hrows Hi]].
    apply in_map_iff in Hrows. destruct Hrows as [[k' rows'] [E Hg]].
    simpl in E. subst rows'.
    pose proof (group_rows_key _ _ _ _ Hg Hi) as Hk'.
    rewrite nth_error_map, Hrow in Hk'. simpl in Hk'.
    assert (k' = k) by congruence. subst k'.
    destruct (In_nth_error _ _ Hg) as [j Hj].
    exists j, rows. split; [exact Hj|]. split; [exact Hi|].
    intros j' g' Hj' Hi'.
    apply (NoDup_concat_unique (map snd groups) j' j (snd g') rows i Hnd);
      try assumption.
    + now rewrite nth_error_map, Hj'.
    + now rewrite nth_error_map, Hj.
  - intro i. rewrite <- Hkey. apply group_rows_positions.
Qed.

Lemma dataset_country_partition_witness :
  let dataset :=
    [ {| Country := Some "US"%string; Overall := 10%float |};
      {| Country := Some "BE"%string; Overall := 12%float |};
      {| Country := Some "US"%string; Overall := 14%float |} ] in
  exists j rows,
    nth_error (grouper (dataset_country dataset)) j = Some ("US"%string, rows) /\
    In 2 rows /\
    forall j' g', nth_error (grouper (dataset_country dataset)) j' = Some g' ->
                  In 2 (snd g') -> j' = j.
Proof.
  refine (proj1 (dataset_country_partition
                   [ {| Country := Some "US"%string; Overall := 10%float |};
                     {| Country := Some "BE"%string; Overall := 12%float |};
                     {| Country := Some "US"%string; Overall := 14%float |} ])
                2 {| Country := Some "US"%string; Overall := 14%float |}
                "US"%string eq_refl eq_refl).
Defined.

(** C6 fails on the code: the second row of this table has no [Country] and
    belongs to no group. *)
Lemma dataset_country_drops_missing_key :
  let dataset :=
    [ {| Country := Some "BE"%string; Overall := 12%float |};
      {| Country := None; Overall := 3%float |} ] in
  grouper (dataset_country dataset) = [("BE"%string, [0])] /\
  ~ (forall i row, nth_error dataset i = Some row ->
       exists g, In g (grouper (dataset_country dataset)) /\ In i (snd g)).
Proof.
  split; [reflexivity|].
  intro H. destruct (H 1 _ eq_refl) as [g [Hg Hi]].
  destruct Hg as [<-|[]]. simpl in Hi. destruct Hi as [Hi|[]]. discriminate.
Qed.

(** ** Exact cells: sum, count and mean of a group *)

Module ExactMean.

Import Exact ExactOrder ExactSeries ExactFormula ExactRescale.

Local Open Scope Qc_scope.

(** The finite cells of a column. *)
Fixpoint qvals (x : list xnum) : list Qc :=
  match x with
  | [] => []
  | Fin q :: x => q :: qvals x
  | _ :: x => qvals x
  end.

Fixpoint qsum (qs : list Qc) : Qc :=
  match qs with
  | [] => 0
  | q :: qs => q + qsum qs
  end.

Definition nQ (n : nat) : Qc := Q2Qc (inject_Z (Z.of_nat n)).

Lemma nQ_S (n : nat) : nQ (S n) = nQ n + 1.
Proof.
  unfold nQ, Qcplus. apply Q2Qc_eq_iff.
  change (inject_Z (Z.of_nat (S n)) ==
          Qred (inject_Z (Z.of_nat n)) + Qred 1)%Q.
  rewrite !Qred_correct, Nat2Z.inj_succ. unfold Z.succ.
  rewrite inject_Z_plus. reflexivity.
Qed.

Lemma nQ_nonneg (n : nat) : 0 <= nQ n.
Proof.
  induction n as [|n IH].
  - unfold nQ, Qcle. simpl. apply Qle_refl.
  - rewrite nQ_S. rewrite <- (Qcplus_0_l 0).
    apply Qcplus_le_compat; [exact IH|]. unfold Qcle. simpl. discriminate.
Qed.

Lemma nQ_pos (n : nat) : 0 < nQ (S n).
Proof.
  rewrite nQ_S. apply Qcle_lt_trans with (nQ n + 0).
  - rewrite Qcplus_0_r. apply nQ_nonneg.
  - apply Qcminus_pos. replace (nQ n + 1 - (nQ n + 0)) with 1 by ring.
    unfold Qclt. simpl. reflexivity.
Qed.

Lemma in_qvals (x : list xnum) (q : Qc) : In q (qvals x) <-> In (Fin q) x.
Proof.
  induction x as [|[p| | |] x IH]; simpl; try tauto.
  - rewrite IH. split; intros [E|?]; auto; left; congruence.
  - rewrite IH. split; [auto|]. intros [E|?]; [discriminate|auto].
  - rewrite IH. split; [auto|]. intros [E|?]; [discriminate|auto].
  - rewrite IH. split; [auto|]. intros [E|?]; [discriminate|auto].
Qed.

Lemma series_count_qvals (x : list xnum) :
  Forall (fun v => finite_or_null v = true) x ->
  series_count x = length (qvals x).
Proof.
  induction 1 as [|v x Hv _ IH].
  - reflexivity.
  - rewrite series_count_cons, IH.
    destruct v; try discriminate; reflexivity.
Qed.

Lemma fold_add_qsum (x : list xnum) (s : Qc) :
  Forall (fun v => finite_or_null v = true) x ->
  fold_left add (fillna (Fin 0) x) (Fin s) = Fin (s + qsum (qvals x)).
Proof.
  intro H. revert s.
  induction H as [|v x Hv _ IH]; intro s; simpl.
  - now rewrite Qcplus_0_r.
  - destruct v as [q| | |]; try discriminate; simpl; rewrite IH.
    + now rewrite Qcplus_assoc.
    + now rewrite Qcplus_0_r.
Qed.

Lemma series_sum_qsum (x : list xnum) :
  Forall (fun v => finite_or_null v = true) x ->
  series_sum x = Fin (qsum (qvals x)).
Proof.
  intro H. unfold series_sum.
  change (fold_left nadd (fillna zero x) zero)
    with (fold_left add (fillna (Fin 0) x) (Fin 0)).
  now rewrite fold_add_qsum, Qcplus_0_l.
Qed.

Lemma qsum_lower (qs : list Qc) (lo : Qc) :
  (forall q, In q qs -> lo <= q) -> lo * nQ (length qs) <= qsum qs.
Proof.
  induction qs as [|q qs IH]; intro H.
  - simpl. rewrite Qcmult_0_r. apply Qcle_refl.
  - simpl length. rewrite nQ_S. simpl qsum.
    replace (lo * (nQ (length qs) + 1)) with (lo + lo * nQ (length qs)) by ring.
    apply Qcplus_le_compat.
    + apply H. now left.
    + apply IH. intros p Hp. apply H. now right.
Qed.

Lemma qsum_upper (qs : list Qc) (hi : Qc) :
  (forall q, In q qs -> q <= hi) -> qsum qs <= hi * nQ (length qs).
Proof.
  induction qs as [|q qs IH]; intro H.
  - simpl. rewrite Qcmult_0_r. apply Qcle_refl.
  - simpl length. rewrite nQ_S. simpl qsum.
    replace (hi * (nQ (length qs) + 1)) with (hi + hi * nQ (length qs)) by ring.
    apply Qcplus_le_compat.
    + apply H. now left.
    + apply IH. intros p Hp. apply H. now right.
Qed.

Lemma div_lower (lo s n : Qc) : 0 < n -> lo * n <= s -> lo <= s / n.
Proof.
  intros Hn H. apply Qcminus_nonneg.
  replace (s / n - lo) with ((s - lo * n) * / n)
    by (field; intro E; subst n; now apply (Qclt_not_eq _ _ Hn)).
  apply Qcmult_nonneg.
  - now apply (proj1 (Qcminus_nonneg _ _)).
  - apply Qclt_le_weak. now apply Qcinv_pos.
Qed.

Lemma div_upper (hi s n : Qc) : 0 < n -> s <= hi * n -> s / n <= hi.
Proof.
  intros Hn H. apply Qcminus_nonneg.
  replace (hi - s / n) with ((hi * n - s) * / n)
    by (field; intro E; subst n; now apply (Qclt_not_eq _ _ Hn)).
  apply Qcmult_nonneg.
  - now apply (proj1 (Qcminus_nonneg _ _)).
  - apply Qclt_le_weak. now apply Qcinv_pos.
Qed.

(** The mean of a group with a valid cell, all valid cells finite. *)
Lemma series_mean_qsum (x : list xnum) (n : nat) :
  Forall (fun v => finite_or_null v = true) x ->
  series_count x = S n ->
  series_mean x = Fin (qsum (qvals x) / nQ (S n)).
Proof.
  intros Hf Hc. unfold series_mean. rewrite Hc, (series_sum_qsum x Hf).
  change (of_count (S n)) with (Fin (nQ (S n))). simpl.
  now rewrite (sign_pos _ (nQ_pos n)).
Qed.

End ExactMean.

(** ** The summary rows *)

Section SummaryFacts.

Context {T : Type} {N : Numeric T}.

(** The table of [stats_country], when the cell does not raise, is the
    series of [apply]; it does not raise when the series has a row. *)
Lemma stats_country_Ok (dataset : list (Row T))
      (table : list (string * Stats.t T)) :
  stats_country dataset = Ok table -> table = apply_get_stats dataset.
Proof.
  unfold stats_country, unstack.
  destruct (apply_get_stats dataset); [discriminate|congruence].
Qed.


(** Every row of the series is [get_stats] of the cells of a group. *)
Lemma stats_country_group (dataset : list (Row T)) (k : string) (s : Stats.t T) :
  In (k, s) (apply_get_stats dataset) ->
  exists rows,
    In (k, rows) (grouper (dataset_country dataset)) /\
    s = get_stats (take (map Overall dataset) rows).
Proof.
  unfold apply_get_stats, apply. intro H.
  apply in_map_iff in H. destruct H as [[k' rows] [E Hin]].
  simpl in E. inversion E; subst. eauto.
Qed.

(** The cells of a group are cells of the column. *)
Lemma group_cells (dataset : list (Row T)) (k : string) (rows : list nat) :
  In (k, rows) (grouper (dataset_country dataset)) ->
  forall v, In v (take (map Overall dataset) rows) ->
  exists row, In row dataset /\ Country row = Some k /\ Overall row = v.
Proof.
  intros Hg v Hv. unfold take in Hv.
  apply in_map_iff in Hv. destruct Hv as [i [<- Hi]].
  pose proof (group_rows_key _ _ _ _ Hg Hi) as Hk.
  rewrite nth_error_map in Hk.
  destruct (nth_error dataset i) as [row|] eqn:Hrow; [|discriminate].
  exists row. split; [eapply nth_error_In; eauto|].
  split; [simpl in Hk; congruence|].
  symmetry. apply nth_error_nth. now rewrite nth_error_map, Hrow.
Qed.

End SummaryFacts.

(** C7, as the code has it.  In exact arithmetic, every summary row with
    [count > 0] whose group has finite valid cells has
    [min <= mean <= max]. *)
Theorem stats_country_exact_mean_between
        (dataset : list (Row xnum)) (table : list (string * Stats.t xnum))
        (k : string) (s : Stats.t xnum) :
  stats_country dataset = Ok table ->
  In (k, s) table ->
  (forall row, In row dataset -> Country row = Some k ->
               Exact.finite_or_null (Overall row) = true) ->
  Stats.count s > 0 ->
  nleb (Stats.min s) (Stats.mean s) = true /\
  nleb (Stats.mean s) (Stats.max s) = true.
Proof.
  intros Htab Hin Hf Hc. apply stats_country_Ok in Htab. subst table.
  destruct (stats_country_group dataset k s Hin) as [rows [Hg ->]].
  set (group := take (map Overall dataset) rows) in *.
  assert (Hfg : Forall (fun v => Exact.finite_or_null v = true) group).
  { apply Forall_forall. intros v Hv.
    destruct (group_cells dataset k rows Hg v Hv) as [row [Hrow [Hk <-]]].
    now apply Hf. }
  simpl in *.
  destruct (series_count group) as [|n] eqn:Hn; [lia|].
  assert (Hv : Exists (fun v => Exact.is_nan v = false) group).
  { destruct (ExactRescale.all_null_or_valid group) as [Hnull|?]; [|assumption].
    rewrite (series_count_all_null group Hnull) in Hn. discriminate. }
  destruct (ExactRescale.extrema_Fin group Hfg Hv) as [lo [hi [-> [-> Hb]]]].
  rewrite (ExactMean.series_mean_qsum group n Hfg Hn).
  rewrite (ExactMean.series_count_qvals group Hfg) in Hn.
  split; apply ExactOrder.leb_Fin.
  - apply ExactMean.div_lower; [apply ExactMean.nQ_pos|].
    rewrite <- Hn. apply ExactMean.qsum_lower.
    intros q Hq. apply Hb. now apply ExactMean.in_qvals.
  - apply ExactMean.div_upper; [apply ExactMean.nQ_pos|].
    rewrite <- Hn. apply ExactMean.qsum_upper.
    intros q Hq. apply Hb. now apply ExactMean.in_qvals.
Qed.

Lemma stats_country_exact_mean_between_witness :
  let s := get_stats [Exact.of_Z 10; NaN; Exact.of_Z 14] in
  nleb (Stats.min s) (Stats.mean s) = true /\
  nleb (Stats.mean s) (Stats.max s) = true.
Proof.
  refine (stats_country_exact_mean_between
            [ {| Country := Some "X"%string; Overall := Exact.of_Z 10 |};
              {| Country := Some "Y"%string; Overall := PInf |};
              {| Country := Some "X"%string; Overall := NaN |};
              {| Country := Some "X"%string; Overall := Exact.of_Z 14 |} ]
            _ "X"%string
            (get_stats [Exact.of_Z 10; NaN; Exact.of_Z 14]) eq_refl _ _ _).
  - left. reflexivity.
  - intros row Hrow Hk. simpl in Hrow.
    destruct Hrow as [<-|[<-|[<-|[<-|[]]]]]; try reflexivity.
    discriminate.
  - vm_compute. lia.
Defined.

(** C7 fails in binary64: the mean of three cells [0.1] is
    [0.10000000000000002], above their maximum. *)
Lemma stats_country_binary64_mean_above_max :
  let c := 0x1.999999999999ap-4%float in
  let dataset :=
    [ {| Country := Some "X"%string; Overall := c |};
      {| Country := Some "X"%string; Overall := c |};
      {| Country := Some "X"%string; Overall := c |} ] in
  stats_country dataset =
    Ok [("X"%string, Stats.make c c 3 0x1.999999999999bp-4%float)] /\
  ~ (forall table k s,
       stats_country dataset = Ok table -> In (k, s) table ->
       Stats.count s > 0 ->
       nleb (Stats.min s) (Stats.mean s) = true /\
       nleb (Stats.mean s) (Stats.max s) = true).
Proof.
  split; [reflexivity|].
  intro H.
  destruct (H _ _ _ eq_refl (or_introl eq_refl)) as [_ Hle].
  - vm_compute. lia.
  - vm_compute in Hle. discriminate.
Qed.

Section EdgeCases.

Context {T : Type} {N : Numeric T}.





End EdgeCases.





(** C10.  The count of [get_stats] is the number of cells of the group that
    are not missing: it is the length of the valid cells, a missing cell put
    anywhere in the group leaves it unchanged and a valid one adds one; and
    every summary row of [stats_country] carries the number of valid cells
    among the rows of its group. *)
Theorem get_stats_count_valid_cells {T : Type} {N : Numeric T} :
  (forall group : list T,
      Stats.count (get_stats group) = length (filter notnull group)) /\
  (forall (g1 g2 : list T) (v : T),
      Stats.count (get_stats (g1 ++ v :: g2)) =
      (if isnull v then 0 else 1) + Stats.count (get_stats (g1 ++ g2))) /\
  (forall (dataset : list (Row T)) (table : list (string * Stats.t T))
          (k : string) (s : Stats.t T),
      stats_country dataset = Ok table ->
      In (k, s) table ->
      exists rows,
        In (k, rows) (grouper (dataset_country dataset)) /\
        Stats.count s =
        length (filter (fun i => notnull (nth i (map Overall dataset) nan)) rows)).
Proof.
  split; [|split].
  - intro group. apply series_count_filter.
  - intros g1 g2 v. simpl.
    rewrite !series_count_app, series_count_cons. lia.
  - intros dataset table k s Htab Hin.
    apply stats_country_Ok in Htab. subst table.
    destruct (stats_country_group dataset k s Hin) as [rows [Hg ->]].
    exists rows. split; [exact Hg|]. simpl.
    rewrite series_count_filter. unfold take.
    clear Hg Hin. induction rows as [|i rows IH]; simpl.
    + reflexivity.
    + destruct (notnull (nth i (map Overall dataset) nan)); simpl;
        now rewrite IH.
Qed.

Lemma get_stats_count_valid_cells_witness :
  let dataset :=
    [ {| Country := Some "US"%string; Overall := 10%float |};
      {| Country := Some "US"%string; Overall := PrimFloat.nan |};
      {| Country := Some "US"%string; Overall := 14%float |} ] in
  exists rows,
    In ("US"%string, rows) (grouper (dataset_country dataset)) /\
    2 = length (filter (fun i => notnull (nth i (map Overall dataset) nan)) rows).
Proof.
  refine (proj2 (proj2 get_stats_count_valid_cells)
                [ {| Country := Some "US"%string; Overall := 10%float |};
                  {| Country := Some "US"%string; Overall := PrimFloat.nan |};
                  {| Country := Some "US"%string; Overall := 14%float |} ]
                _ "US"%string (Stats.make 10 14 2 12)%float eq_refl _).
  left. reflexivity.
Defined.

(** ** The scenarios of the notebook on binary64 *)

(** [Overall = [10, 12, 14]] under the single key ["X"]. *)
Example stats_country_single_key :
  stats_country
    [ {| Country := Some "X"%string; Overall := 10%float |};
      {| Country := Some "X"%string; Overall := 12%float |};
      {| Country := Some "X"%string; Overall := 14%float |} ] =
  Ok [("X"%string, Stats.make 10 14 3 12)%float].
Proof. reflexivity. Qed.

(** Keys come out in ascending order, a row without key is dropped, and a
    missing cell is not counted. *)
Example stats_country_mixed :
  stats_country
    [ {| Country := Some "US"%string; Overall := 10%float |};
      {| Country := Some "BE"%string; Overall := 12%float |};
      {| Country := None; Overall := 3%float |};
      {| Country := Some "US"%string; Overall := PrimFloat.nan |};
      {| Country := Some "BE"%string; Overall := 14%float |} ] =
  Ok [ ("BE"%string, Stats.make 12 14 2 13)%float;
       ("US"%string, Stats.make 10 10 1 10)%float ].
Proof. reflexivity. Qed.

(** * Further properties of the grouped summary *)

(** ** The order of the keys *)


Lemma ascii_compare_lt_trans (a b c : Ascii.ascii) :
  Ascii.compare a b = Lt -> Ascii.compare b c = Lt -> Ascii.compare a c = Lt.
Proof.
  unfold Ascii.compare. rewrite !N.compare_lt_iff. apply N.lt_trans.
Qed.

Lemma string_compare_lt_trans (s1 s2 s3 : string) :
  String.compare s1 s2 = Lt -> String.compare s2 s3 = Lt ->
  String.compare s1 s3 = Lt.
Proof.
  revert s2 s3.
  induction s1 as [|a s1 IH]; intros [|b s2] [|c s3]; simpl;
    try discriminate; try reflexivity.
  destruct (Ascii.compare a b) eqn:Hab; try discriminate;
    destruct (Ascii.compare b c) eqn:Hbc; try discriminate; intros H1 H2.
  - apply Ascii.compare_eq_iff in Hab, Hbc. subst.
    assert (E : Ascii.compare c c = Eq) by apply N.compare_refl.
    rewrite E. eapply IH; eauto.
  - apply Ascii.compare_eq_iff in Hab. subst. now rewrite Hbc.
  - apply Ascii.compare_eq_iff in Hbc. subst. now rewrite Hab.
  - now rewrite (ascii_compare_lt_trans a b c Hab Hbc).
Qed.

Lemma string_compare_refl (s : string) : String.compare s s = Eq.
Proof.
  induction s as [|a s IH]; simpl; [reflexivity|].
  assert (E : Ascii.compare a a = Eq) by apply N.compare_refl.
  now rewrite E.
Qed.

Lemma string_compare_gt_lt (s1 s2 : string) :
  String.compare s1 s2 = Gt -> String.compare s2 s1 = Lt.
Proof.
  intro H. rewrite String.compare_antisym, H. reflexivity.
Qed.

(** Keys in strictly ascending order. *)
Definition ascending (keys : list string) : Prop :=
  StronglySorted (fun k k' => String.compare k k' = Lt) keys.

Lemma ascending_NoDup (keys : list string) : ascending keys -> NoDup keys.
Proof.
  induction 1 as [|k keys Hs IH Hall].
  - constructor.
  - constructor; [|exact IH].
    intro Hin. rewrite Forall_forall in Hall.
    specialize (Hall k Hin). rewrite string_compare_refl in Hall. discriminate.
Qed.

Lemma add_row_keys (k : string) (i : nat) (groups : list (string * list nat))
      (k' : string) :
  In k' (map fst (add_row k i groups)) <-> k' = k \/ In k' (map fst groups).
Proof.
  induction groups as [|[k0 rows0] rest IH]; simpl.
  - intuition.
  - destruct (String.compare k k0) eqn:Hc; simpl.
    + apply String.compare_eq_iff in Hc. subst. intuition.
    + intuition.
    + rewrite IH. intuition.
Qed.

Lemma add_row_ascending (k : string) (i : nat) (groups : list (string * list nat)) :
  ascending (map fst groups) -> ascending (map fst (add_row k i groups)).
Proof.
  unfold ascending.
  induction groups as [|[k0 rows0] rest IH]; simpl; intro H.
  - repeat constructor.
  - inversion H as [|? ? Hs Hall]; subst.
    destruct (String.compare k k0) eqn:Hc; simpl.
    + exact H.
    + constructor; [exact H|]. constructor; [exact Hc|].
      eapply Forall_impl; [|exact Hall].
      intros k1 H1. eapply string_compare_lt_trans; eauto.
    + constructor; [now apply IH|].
      apply Forall_forall. intros k1 Hk1.
      apply add_row_keys in Hk1. destruct Hk1 as [->|Hk1].
      * now apply string_compare_gt_lt.
      * rewrite Forall_forall in Hall. now apply Hall.
Qed.

(** What [add_row] does to a group, when the keys are in order: the group of
    [k] gets the row as its last one, or is created with it; the other
    groups stay. *)
Lemma add_row_inv (k : string) (i : nat) (groups : list (string * list nat))
      (k' : string) (rows' : list nat) :
  ascending (map fst groups) ->
  In (k', rows') (add_row k i groups) ->
  (k' <> k /\ In (k', rows') groups) \/
  (k' = k /\ exists rows, In (k, rows) groups /\ rows' = rows ++ [i]) \/
  (k' = k /\ ~ In k (map fst groups) /\ rows' = [i]).
Proof.
  unfold ascending.
  induction groups as [|[k0 rows0] rest IH]; simpl; intros Hs Hin.
  - destruct Hin as [E|[]]. inversion E; subst. right. right. auto.
  - inversion Hs as [|? ? Hs' Hall]; subst.
    assert (Hk0 : ~ In k0 (map fst rest)).
    { intro Hc. rewrite Forall_forall in Hall. specialize (Hall _ Hc).
      rewrite string_compare_refl in Hall. discriminate. }
    destruct (String.compare k k0) eqn:Hc; simpl in Hin.
    + apply String.compare_eq_iff in Hc. subst k0.
      destruct Hin as [E|Hin].
      * inversion E; subst. right. left. split; [reflexivity|].
        exists rows0. auto.
      * left. split; [|auto]. intros ->. apply Hk0.
        apply in_map_iff. exists (k, rows'). auto.
    + assert (Hnew : ~ (k0 = k \/ In k (map fst rest))).
      { intros [->|Hc']; [rewrite string_compare_refl in Hc; discriminate|].
        rewrite Forall_forall in Hall. specialize (Hall _ Hc').
        pose proof (string_compare_lt_trans _ _ _ Hc Hall) as Hkk.
        rewrite string_compare_refl in Hkk. discriminate. }
      destruct Hin as [E|Hin].
      * inversion E; subst. right. right. auto.
      * left. split; [|exact Hin]. intros ->. apply Hnew.
        destruct Hin as [E|Hin]; [inversion E; auto|].
        right. apply in_map_iff. exists (k, rows'). auto.
    + assert (Hne : k0 <> k).
      { intros ->. rewrite string_compare_refl in Hc. discriminate. }
      destruct Hin as [E|Hin].
      * inversion E; subst. left. auto.
      * destruct (IH Hs' Hin) as [[H1 H2]|[[H1 [rows [H2 H3]]]|[H1 [H2 H3]]]].
        -- left. auto.
        -- right. left. split; [exact H1|]. exists rows. auto.
        -- right. right. split; [exact H1|]. split; [|exact H3].
           intros [?|?]; auto.
Qed.

(** ** The rows of a group *)

(** The positions of the rows that carry the key [k], in row order. *)
Definition carries (k : string) (key : option string) : bool :=
  match key with
  | Some k' => String.eqb k' k
  | None => false
  end.

Definition carries_any (key : option string) : bool :=
  match key with
  | Some _ => true
  | None => false
  end.

Definition occurrences (k : string) (rs : list (nat * option string)) : list nat :=
  map fst (filter (fun r => carries k (snd r)) rs).

Lemma occurrences_snoc (k : string) (rs : list (nat * option string))
      (i : nat) (key : option string) :
  occurrences k (rs ++ [(i, key)]) =
  occurrences k rs ++ (if carries k key then [i] else []).
Proof.
  unfold occurrences. rewrite filter_app, map_app. simpl.
  now destruct (carries k key).
Qed.

Lemma occurrences_nonempty (k : string) (rs : list (nat * option string)) :
  occurrences k rs <> [] <-> exists i, In (i, Some k) rs.
Proof.
  unfold occurrences. split.
  - intro H. destruct (filter (fun r => carries k (snd r)) rs) as [|[i key] l] eqn:E;
      [now elim H|].
    assert (Hin : In (i, key) (filter (fun r => carries k (snd r)) rs))
      by (rewrite E; now left).
    apply filter_In in Hin. destruct Hin as [Hin Hc]. simpl in Hc.
    destruct key as [k'|]; [|discriminate].
    apply String.eqb_eq in Hc. subst. eauto.
  - intros [i Hi] E.
    assert (Hin : In (i, Some k) (filter (fun r => carries k (snd r)) rs)).
    { apply filter_In. split; [exact Hi|]. simpl. apply String.eqb_refl. }
    destruct (filter (fun r => carries k (snd r)) rs); [exact Hin|discriminate].
Qed.

(** The grouping after any number of rows: the keys are in strictly ascending
    order, a group holds exactly the rows of its key, in row order, and the
    keys are the keys that occur. *)
Lemma place_all_inv (rs : list (nat * option string)) :
  ascending (map fst (fold_left place rs [])) /\
  (forall k rows, In (k, rows) (fold_left place rs []) -> rows = occurrences k rs) /\
  (forall k, In k (map fst (fold_left place rs [])) <-> exists i, In (i, Some k) rs).
Proof.
  induction rs as [|[i key] rs IH] using rev_ind.
  - simpl. split; [constructor|]. split; [intros ? ? []|].
    intro k. split; [intros []|intros [? []]].
  - rewrite fold_left_app. simpl.
    destruct IH as [Hs [Hrows Hkeys]].
    set (gs := fold_left place rs []) in *.
    destruct key as [k0|]; unfold place; simpl.
    + split; [now apply add_row_ascending|]. split.
      * intros k rows Hin. rewrite occurrences_snoc. simpl.
        destruct (add_row_inv _ _ _ _ _ Hs Hin)
          as [[Hne Hg]|[[-> [rows0 [Hg ->]]]|[-> [Hnew ->]]]].
        -- rewrite (Hrows _ _ Hg).
           replace (String.eqb k0 k) with false
             by (symmetry; apply String.eqb_neq; congruence).
           now rewrite app_nil_r.
        -- now rewrite (Hrows _ _ Hg), String.eqb_refl.
        -- rewrite String.eqb_refl.
           destruct (occurrences k0 rs) as [|j l] eqn:E; [reflexivity|].
           exfalso. apply Hnew. apply Hkeys. apply occurrences_nonempty.
           now rewrite E.
      * intro k. rewrite add_row_keys, Hkeys. split.
        -- intros [->|[j Hj]]; [exists i|exists j]; apply in_or_app; simpl; auto.
        -- intros [j Hj]. apply in_app_or in Hj. destruct Hj as [Hj|[E|[]]].
           ++ right. eauto.
           ++ left. congruence.
    + split; [exact Hs|]. split.
      * intros k rows Hin. rewrite occurrences_snoc. simpl.
        rewrite app_nil_r. now apply Hrows.
      * intro k. rewrite Hkeys. split.
        -- intros [j Hj]. exists j. apply in_or_app. auto.
        -- intros [j Hj]. apply in_app_or in Hj.
           destruct Hj as [Hj|[E|[]]]; [eauto|discriminate].
Qed.

Lemma combine_seq_snoc {A : Type} (l : list A) (a : A) (s : nat) :
  combine (seq s (length (l ++ [a]))) (l ++ [a]) =
  combine (seq s (length l)) l ++ [(s + length l, a)].
Proof.
  revert s. induction l as [|b l IH]; intro s; simpl.
  - now rewrite Nat.add_0_r.
  - rewrite IH. simpl. now rewrite Nat.add_succ_r.
Qed.

(** The cells at the positions selected by their key are the cells of the
    selected rows, in row order. *)
Lemma take_selected {A T : Type} (key : A -> option string) (val : A -> T)
      (d : T) (P : option string -> bool) (l : list A) :
  map (fun i => nth i (map val l) d)
      (map fst (filter (fun r => P (snd r))
                       (combine (seq 0 (length (map key l))) (map key l)))) =
  map val (filter (fun a => P (key a)) l).
Proof.
  induction l as [|a l IH] using rev_ind.
  - reflexivity.
  - rewrite !map_app. simpl map.
    rewrite combine_seq_snoc, !filter_app, !map_app.
    simpl. f_equal.
    + rewrite <- IH. apply map_ext_in. intros i Hi.
      apply app_nth1. rewrite length_map.
      apply in_map_iff in Hi.
      destruct Hi as [[j key0] [E Hin]]. simpl in E. subst j.
      apply filter_In in Hin. destruct Hin as [Hin _].
      apply in_combine_seq in Hin. destruct Hin as [_ Hn].
      rewrite Nat.sub_0_r in Hn.
      assert (Hlt : nth_error (map key l) i <> None) by congruence.
      apply nth_error_Some in Hlt. now rewrite length_map in Hlt.
    + destruct (P (key a)); [|reflexivity]. simpl. f_equal.
      rewrite length_map.
      rewrite app_nth2; rewrite length_map; [|lia].
      now rewrite Nat.sub_diag.
Qed.

(** ** One row per country *)

Section OneRowPerCountry.

Context {T : Type} {N : Numeric T}.

Lemma dataset_country_inv (dataset : list (Row T)) :
  let groups := grouper (dataset_country dataset) in
  ascending (map fst groups) /\
  (forall k rows, In (k, rows) groups ->
     take (map Overall dataset) rows =
     map Overall (filter (fun row => carries k (Country row)) dataset)) /\
  (forall k, In k (map fst groups) <->
             exists row, In row dataset /\ Country row = Some k).
Proof.
  intro groups. subst groups.
  unfold dataset_country, groupby, group_rows. cbn [grouper].
  destruct (place_all_inv
              (combine (seq 0 (length (map Country dataset))) (map Country dataset)))
    as [Hs [Hrows Hkeys]].
  split; [exact Hs|]. split.
  - intros k rows Hin. rewrite (Hrows k rows Hin).
    apply (take_selected Country Overall nan (carries k)).
  - intro k. rewrite (Hkeys k). split.
    + intros [i Hi]. apply in_combine_seq in Hi. destruct Hi as [_ Hi].
      rewrite Nat.sub_0_r, nth_error_map in Hi.
      destruct (nth_error dataset i) as [row|] eqn:Hrow; [|discriminate].
      exists row. split; [eapply nth_error_In; eauto|]. simpl in Hi. congruence.
    + intros [row [Hin Hk]]. destruct (In_nth_error _ _ Hin) as [i Hi].
      exists i. apply in_combine_seq. split; [lia|].
      now rewrite Nat.sub_0_r, nth_error_map, Hi, <- Hk.
Qed.

Lemma stats_country_keys (dataset : list (Row T)) :
  map fst (apply_get_stats dataset) = map fst (grouper (dataset_country dataset)).
Proof.
  unfold apply_get_stats, apply. rewrite map_map. reflexivity.
Qed.

(** The cell raises exactly when no row has a country. *)
Lemma stats_country_raises (dataset : list (Row T)) :
  stats_country dataset = ValueError <->
  forall row, In row dataset -> Country row = None.
Proof.
  destruct (dataset_country_inv dataset) as [_ [_ Hkeys]].
  rewrite <- stats_country_keys in Hkeys.
  unfold stats_country, unstack.
  destruct (apply_get_stats dataset) as [|[k s] rest].
  - split; [intros _|reflexivity]. intros row Hrow.
    destruct (Country row) as [k|] eqn:E; [|reflexivity].
    destruct (proj2 (Hkeys k)). now exists row.
  - split; [discriminate|]. intro Hnone. exfalso.
    destruct (proj1 (Hkeys k) (or_introl eq_refl)) as [row [Hrow E]].
    rewrite (Hnone row Hrow) in E. discriminate.
Qed.

End OneRowPerCountry.

(** The cell of [stats_country] raises exactly when no row of the dataset
    has a country.  Otherwise the table has one row per country that occurs
    in the dataset: its keys are in strictly ascending order, so no country
    comes twice, and they are exactly the countries of the rows. *)
Theorem stats_country_one_row_per_country {T : Type} {N : Numeric T}
        (dataset : list (Row T)) :
  (stats_country dataset = ValueError <->
   forall row, In row dataset -> Country row = None) /\
  forall table, stats_country dataset = Ok table ->
    ascending (map fst table) /\
    NoDup (map fst table) /\
    (forall k, In k (map fst table) <->
               exists row, In row dataset /\ Country row = Some k).
Proof.
  split; [apply stats_country_raises|].
  intros table Htab. apply stats_country_Ok in Htab. subst table.
  rewrite stats_country_keys.
  destruct (dataset_country_inv dataset) as [Hs [_ Hkeys]].
  split; [exact Hs|]. split; [now apply ascending_NoDup|exact Hkeys].
Qed.

Lemma stats_country_one_row_per_country_witness :
  let dataset :=
    [ {| Country := Some "US"%string; Overall := 10%float |};
      {| Country := Some "BE"%string; Overall := 12%float |};
      {| Country := None; Overall := 3%float |};
      {| Country := Some "US"%string; Overall := 14%float |} ] in
  stats_country dataset =
    Ok [ ("BE"%string, Stats.make 12 12 1 12)%float;
         ("US"%string, Stats.make 10 14 2 12)%float ] /\
  NoDup ["BE"%string; "US"%string].
Proof.
  intro dataset. split; [reflexivity|].
  refine (proj1 (proj2 (proj2 (stats_country_one_row_per_country dataset)
                          [ ("BE"%string, Stats.make 12 12 1 12)%float;
                            ("US"%string, Stats.make 10 14 2 12)%float ]
                          eq_refl))).
Defined.



(** ** The counts add up *)

Lemma filter_length_perm {A : Type} (p : A -> bool) (l l' : list A) :
  Permutation l l' -> length (filter p l) = length (filter p l').
Proof.
  induction 1 as [|a l l' _ IH|a b l|l l' l'' _ IH1 _ IH2]; simpl.
  - reflexivity.
  - destruct (p a); simpl; now rewrite IH.
  - destruct (p a), (p b); reflexivity.
  - now rewrite IH1.
Qed.

Lemma filter_length_map {A B : Type} (f : A -> B) (p : B -> bool) (l : list A) :
  length (filter p (map f l)) = length (filter (fun a => p (f a)) l).
Proof.
  induction l as [|a l IH]; simpl; [reflexivity|].
  destruct (p (f a)); simpl; now rewrite IH.
Qed.

Section CountsAddUp.

Context {T : Type} {N : Numeric T}.

(** A row that the summary counts: it has a country and a score. *)
Definition scored (row : Row T) : bool :=
  match Country row with
  | Some _ => notnull (Overall row)
  | None => false
  end.

Lemma counts_of_groups (col : list T) (groups : list (string * list nat)) :
  list_sum (map (fun kr => series_count (take col (snd kr))) groups) =
  length (filter (fun i => notnull (nth i col nan)) (positions groups)).
Proof.
  unfold positions.
  induction groups as [|[k rows] rest IH]; simpl.
  - reflexivity.
  - rewrite filter_app, length_app, <- IH. f_equal.
    rewrite series_count_filter. unfold take. apply filter_length_map.
Qed.

End CountsAddUp.

(** The counts of the table, when the cell does not raise, add up to the
    number of rows of the dataset that have both a country and a score: no
    such row is left out or counted twice. *)
Theorem stats_country_counts_add_up {T : Type} {N : Numeric T}
        (dataset : list (Row T)) (table : list (string * Stats.t T)) :
  stats_country dataset = Ok table ->
  list_sum (map (fun r => Stats.count (snd r)) table) =
  length (filter scored dataset).
Proof.
  intro Htab. apply stats_country_Ok in Htab. subst table.
  unfold apply_get_stats, apply. rewrite map_map. simpl.
  rewrite (counts_of_groups (map Overall dataset)).
  unfold dataset_country, groupby, group_rows. cbn [grouper obj].
  rewrite (filter_length_perm _ _ _
             (place_all_positions
                (combine (seq 0 (length (map Country dataset)))
                         (map Country dataset)) [])).
  simpl.
  rewrite <- (filter_length_map (fun i => nth i (map Overall dataset) nan) notnull).
  rewrite (filter_ext has_key (fun r => carries_any (snd r))) by reflexivity.
  rewrite (take_selected Country Overall nan carries_any).
  rewrite filter_length_map.
  clear. induction dataset as [|[[k|] v] ds IH]; simpl; [reflexivity| |exact IH].
  unfold scored. simpl. destruct (notnull v); simpl; now rewrite IH.
Qed.

Lemma stats_country_counts_add_up_witness :
  let dataset :=
    [ {| Country := Some "US"%string; Overall := 10%float |};
      {| Country := Some "BE"%string; Overall := 12%float |};
      {| Country := None; Overall := 3%float |};
      {| Country := Some "US"%string; Overall := PrimFloat.nan |};
      {| Country := Some "US"%string; Overall := 14%float |} ] in
  list_sum [1; 2] = length (filter scored dataset).
Proof.
  intro dataset.
  refine (stats_country_counts_add_up dataset
            [ ("BE"%string, Stats.make 12 12 1 12)%float;
              ("US"%string, Stats.make 10 14 2 12)%float ] eq_refl).
Defined.

(** ** Missing statistics *)

Section NullStatistics.

Context {T : Type} {N : Numeric T}.

Lemma fold_pick_valid (better : T -> T -> bool) (x : list T) (acc : T) :
  isnull (fold_left (pick better) x acc) = true <->
  isnull acc = true /\ Forall (fun v => isnull v = true) x.
Proof.
  revert acc. induction x as [|v x IH]; intro acc; simpl.
  - split; [intro H; split; [exact H|constructor]|tauto].
  - rewrite IH. unfold pick.
    destruct (isnull v) eqn:Hv.
    + split; intros [H1 H2]; (split; [exact H1|]).
      * now constructor.
      * now inversion H2.
    + split.
      * intros [H1 H2].
        destruct (isnull acc) eqn:Ha; [congruence|].
        destruct (better v acc); congruence.
      * intros [_ H2]. inversion H2. congruence.
Qed.

Lemma series_count_zero (x : list T) :
  series_count x = 0 <-> Forall (fun v => isnull v = true) x.
Proof.
  split; [|apply series_count_all_null].
  induction x as [|v x IH]; intro H; [constructor|].
  rewrite series_count_cons in H.
  destruct (isnull v) eqn:Hv; [|discriminate].
  constructor; [exact Hv|]. apply IH. exact H.
Qed.

End NullStatistics.

(** In every cell arithmetic the minimum and the maximum of a summary row
    are missing exactly when its count is zero, that is when the group has
    no valid cell, and then the mean is missing too; otherwise both are
    cells of the group. *)
Theorem get_stats_missing_statistics {T : Type} {N : Numeric T}
        (group : list T) :
  let s := get_stats group in
  (Stats.count s = 0 <-> Forall (fun v => isnull v = true) group) /\
  (isnull (Stats.min s) = true <-> Stats.count s = 0) /\
  (isnull (Stats.max s) = true <-> Stats.count s = 0) /\
  (Stats.count s = 0 -> isnull (Stats.mean s) = true) /\
  (Stats.count s <> 0 -> In (Stats.min s) group /\ In (Stats.max s) group).
Proof.
  simpl.
  assert (Hmin : isnull (series_min group) = true <-> series_count group = 0).
  { unfold series_min. rewrite fold_pick_valid, series_count_zero.
    pose proof isnull_nan. tauto. }
  assert (Hmax : isnull (series_max group) = true <-> series_count group = 0).
  { unfold series_max. rewrite fold_pick_valid, series_count_zero.
    pose proof isnull_nan. tauto. }
  split; [apply series_count_zero|]. split; [exact Hmin|]. split; [exact Hmax|].
  split.
  - intro H. unfold series_mean. rewrite H. apply isnull_nan.
  - intro H. split.
    + destruct (fold_pick_member nltb group nan) as [E|Hin]; [|exact Hin].
      exfalso. apply H, Hmin. unfold series_min. rewrite E. apply isnull_nan.
    + destruct (fold_pick_member (fun v acc => nltb acc v) group nan)
        as [E|Hin]; [|exact Hin].
      exfalso. apply H, Hmax. unfold series_max. rewrite E. apply isnull_nan.
Qed.

(** ** The extrema of a group in binary64 *)

(** The fold of [Series.min()] and [Series.max()] over any order that is
    reflexive and transitive on the valid cells and agrees with the
    comparison the fold uses. *)
Section OrderedFold.

Context {T : Type} {N : Numeric T}.

Variable better : T -> T -> bool.
Variable le : T -> T -> bool.
Hypothesis le_refl : forall v, isnull v = false -> le v v = true.
Hypothesis le_trans :
  forall u v w, le u v = true -> le v w = true -> le u w = true.
Hypothesis better_le : forall v acc,
  isnull v = false -> isnull acc = false ->
  if better v acc then le v acc = true else le acc v = true.

Lemma pick_eq (acc v : T) :
  pick better acc v =
  if isnull v then acc
  else if isnull acc then v else if better v acc then v else acc.
Proof. reflexivity. Qed.

Lemma fold_pick_bound (x : list T) (acc : T) :
  isnull acc = false ->
  isnull (fold_left (pick better) x acc) = false /\
  le (fold_left (pick better) x acc) acc = true /\
  forall v, In v x -> isnull v = false ->
            le (fold_left (pick better) x acc) v = true.
Proof.
  revert acc. induction x as [|v x IH]; intros acc Ha; simpl.
  - split; [exact Ha|]. split; [now apply le_refl|]. intros v [].
  - rewrite (pick_eq acc v). destruct (isnull v) eqn:Hv.
    + destruct (IH acc Ha) as [R1 [R2 R3]].
      split; [exact R1|]. split; [exact R2|].
      intros u [<-|Hu] Hn; [congruence|auto].
    + rewrite Ha. pose proof (better_le v acc Hv Ha) as Hb.
      destruct (better v acc).
      * destruct (IH v Hv) as [R1 [R2 R3]].
        split; [exact R1|]. split; [eauto|].
        intros u [<-|Hu] Hn; auto.
      * destruct (IH acc Ha) as [R1 [R2 R3]].
        split; [exact R1|]. split; [exact R2|].
        intros u [<-|Hu] Hn; eauto.
Qed.

Lemma fold_pick_least (x : list T) :
  Exists (fun v => isnull v = false) x ->
  forall v, In v x -> isnull v = false ->
            le (fold_left (pick better) x nan) v = true.
Proof.
  assert (G : forall acc, isnull acc = true ->
            Exists (fun v => isnull v = false) x ->
            forall v, In v x -> isnull v = false ->
                      le (fold_left (pick better) x acc) v = true).
  { induction x as [|u x' IH]; intros acc Ha He; [inversion He|].
    simpl. rewrite (pick_eq acc u). destruct (isnull u) eqn:Hu.
    - intros v [<-|Hv] Hn; [congruence|].
      apply IH; auto. inversion He; subst; [congruence|assumption].
    - rewrite Ha. destruct (fold_pick_bound x' u Hu) as [_ [R2 R3]].
      intros v [<-|Hv] Hn; auto. }
  apply G, isnull_nan.
Qed.

End OrderedFold.

Lemma series_count_valid {T : Type} {N : Numeric T} (x : list T) :
  series_count x <> 0 -> Exists (fun v => isnull v = false) x.
Proof.
  rewrite series_count_zero. induction x as [|v x IH]; intro H.
  - exfalso. apply H. constructor.
  - destruct (isnull v) eqn:Hv.
    + apply Exists_cons_tl, IH. intro F. apply H. now constructor.
    + now apply Exists_cons_hd.
Qed.

Module Binary64Order.

Ltac cmp_cases :=
  repeat match goal with
  | |- context [Z.compare ?a ?b] => destruct (Z.compare_spec a b); subst
  | H : context [Z.compare ?a ?b] |- _ => destruct (Z.compare_spec a b); subst
  | |- context [PosDef.Pos.compare_cont Eq ?a ?b] =>
      change (PosDef.Pos.compare_cont Eq a b) with (Pos.compare a b);
      destruct (Pos.compare_spec a b); subst
  | H : context [PosDef.Pos.compare_cont Eq ?a ?b] |- _ =>
      change (PosDef.Pos.compare_cont Eq a b) with (Pos.compare a b) in H;
      destruct (Pos.compare_spec a b); subst
  end.

Ltac order_done := simpl in *; try discriminate; try reflexivity; try lia.

Lemma SFleb_trans (x y z : spec_float) :
  SFleb x y = true -> SFleb y z = true -> SFleb x z = true.
Proof.
  unfold SFleb, SFcompare.
  destruct x as [s1|s1| |s1 m1 e1], y as [s2|s2| |s2 m2 e2],
           z as [s3|s3| |s3 m3 e3];
    try discriminate; try reflexivity;
    try (destruct s1, s2, s3; simpl; try discriminate; try reflexivity; fail).
  all: try (destruct s1, s2; simpl; try discriminate; try reflexivity; fail).
  all: try (destruct s1, s3; simpl; try discriminate; try reflexivity; fail).
  all: try (destruct s2, s3; simpl; try discriminate; try reflexivity; fail).
  destruct s1, s2, s3; try discriminate; try reflexivity;
    intros H1 H2; cmp_cases; order_done.
Qed.

Lemma SFltb_SFleb (x y : spec_float) : SFltb x y = true -> SFleb x y = true.
Proof.
  unfold SFltb, SFleb. destruct (SFcompare x y) as [[| |]|]; congruence.
Qed.

Lemma SFleb_total (x y : spec_float) :
  x <> S754_nan -> y <> S754_nan -> SFltb x y = false -> SFleb y x = true.
Proof.
  unfold SFltb, SFleb, SFcompare.
  destruct x as [s1|s1| |s1 m1 e1], y as [s2|s2| |s2 m2 e2];
    try congruence; intros _ _;
    try (destruct s1, s2; simpl; try discriminate; try reflexivity; fail);
    try (destruct s1; simpl; try discriminate; try reflexivity; fail);
    try (destruct s2; simpl; try discriminate; try reflexivity; fail).
  destruct s1, s2; try discriminate; try reflexivity;
    intros H1; cmp_cases; order_done.
Qed.

Lemma SFleb_refl (x : spec_float) : x <> S754_nan -> SFleb x x = true.
Proof.
  unfold SFleb, SFcompare. destruct x as [s|s| |s m e]; try congruence; intros _.
  - destruct s; reflexivity.
  - rewrite Z.compare_refl.
    change (PosDef.Pos.compare_cont Eq m m) with (Pos.compare m m).
    rewrite Pos.compare_refl. destruct s; reflexivity.
Qed.

Lemma fleb_refl (v : float) : PrimFloat.is_nan v = false -> PrimFloat.leb v v = true.
Proof.
  intro H. rewrite leb_spec. now apply SFleb_refl, Binary64Spec.is_nan_spec.
Qed.

Lemma fleb_trans (u v w : float) :
  PrimFloat.leb u v = true -> PrimFloat.leb v w = true -> PrimFloat.leb u w = true.
Proof. rewrite !leb_spec. apply SFleb_trans. Qed.

Lemma ltb_leb_cases (v acc : float) :
  PrimFloat.is_nan v = false -> PrimFloat.is_nan acc = false ->
  if PrimFloat.ltb v acc then PrimFloat.leb v acc = true
  else PrimFloat.leb acc v = true.
Proof.
  intros Hv Ha. destruct (PrimFloat.ltb v acc) eqn:E; rewrite leb_spec;
    rewrite ltb_spec in E.
  - now apply SFltb_SFleb.
  - apply SFleb_total; auto using Binary64Spec.is_nan_spec.
Qed.

End Binary64Order.

(** In binary64 the minimum of a group with a valid cell is below every valid
    cell of the group and the maximum above it, so that the minimum never
    exceeds the maximum: the two are picked by comparisons, which do not
    round (the mean, which is computed, has no such guarantee). *)
Theorem get_stats_binary64_extrema (group : list float) :
  Stats.count (get_stats group) <> 0 ->
  let s := get_stats group in
  (forall v, In v group -> PrimFloat.is_nan v = false ->
     PrimFloat.leb (Stats.min s) v = true /\
     PrimFloat.leb v (Stats.max s) = true) /\
  PrimFloat.leb (Stats.min s) (Stats.max s) = true.
Proof.
  simpl. intro Hc. pose proof (series_count_valid group Hc) as He.
  assert (Hb : forall v, In v group -> PrimFloat.is_nan v = false ->
     PrimFloat.leb (series_min group) v = true /\
     PrimFloat.leb v (series_max group) = true).
  { intros v Hv Hn. split.
    - apply (fold_pick_least (N := Binary64_Numeric)
               PrimFloat.ltb PrimFloat.leb
               Binary64Order.fleb_refl Binary64Order.fleb_trans
               Binary64Order.ltb_leb_cases group He v Hv Hn).
    - apply (fold_pick_least (N := Binary64_Numeric)
               (fun v acc => PrimFloat.ltb acc v)
               (fun u w => PrimFloat.leb w u)
               Binary64Order.fleb_refl
               (fun u v w H1 H2 => Binary64Order.fleb_trans w v u H2 H1)).
      + intros u acc Hu Ha.
        pose proof (Binary64Order.ltb_leb_cases acc u Ha Hu) as H.
        destruct (PrimFloat.ltb acc u); exact H.
      + exact He.
      + exact Hv.
      + exact Hn. }
  split; [exact Hb|].
  apply Exists_exists in He. destruct He as [v [Hv Hn]].
  destruct (Hb v Hv Hn) as [H1 H2].
  exact (Binary64Order.fleb_trans _ _ _ H1 H2).
Qed.

Lemma get_stats_binary64_extrema_witness :
  let group := [0x1.8p+1; PrimFloat.nan; 0x1p+0; 0x1p+1]%float in
  Stats.count (get_stats group) <> 0 /\
  PrimFloat.leb (Stats.min (get_stats group)) (Stats.max (get_stats group)) = true.
Proof.
  simpl. split; [vm_compute; discriminate|].
  refine (proj2 (get_stats_binary64_extrema
                   [0x1.8p+1; PrimFloat.nan; 0x1p+0; 0x1p+1]%float _)).
  vm_compute. discriminate.
Defined.

(** ** Invariances of [rescale_to_range] in exact arithmetic *)

Module ExactShape.

Import Exact ExactOrder ExactSeries ExactFormula ExactRescale.

(** A map of the finite cells; the other cells are left as they are. *)
Definition lift (f : Qc -> Qc) (v : xnum) : xnum :=
  match v with
  | Fin q => Fin (f q)
  | _ => v
  end.

Lemma is_nan_lift (f : Qc -> Qc) (v : xnum) : is_nan (lift f v) = is_nan v.
Proof. now destruct v. Qed.

Lemma finite_or_null_lift (f : Qc -> Qc) (x : list xnum) :
  Forall (fun v => finite_or_null v = true) x ->
  Forall (fun v => finite_or_null v = true) (map (lift f) x).
Proof.
  intro H. apply Forall_map. eapply Forall_impl; [|exact H].
  now intros [| | |].
Qed.

Lemma valid_lift (f : Qc -> Qc) (x : list xnum) :
  Exists (fun v => is_nan v = false) x ->
  Exists (fun v => is_nan v = false) (map (lift f) x).
Proof.
  intro H. apply Exists_map. eapply Exists_impl; [|exact H].
  intros v Hv. now rewrite is_nan_lift.
Qed.

Lemma null_lift (f : Qc -> Qc) (x : list xnum) :
  Forall (fun v => isnull v = true) x ->
  Forall (fun v => isnull v = true) (map (lift f) x).
Proof.
  intro H. apply Forall_map. eapply Forall_impl; [|exact H].
  intros v Hv. simpl in *. now rewrite is_nan_lift.
Qed.

Lemma lift_id (x : list xnum) : map (lift (fun q => q)) x = x.
Proof.
  rewrite <- (map_id x) at 2. apply map_ext. now intros [| | |].
Qed.

Lemma in_lift (f : Qc -> Qc) (x : list xnum) (p : Qc) :
  In (Fin p) (map (lift f) x) -> exists q, In (Fin q) x /\ p = f q.
Proof.
  rewrite in_map_iff. intros [[q| | |] [E Hin]]; try discriminate.
  exists q. split; [exact Hin|]. simpl in E. congruence.
Qed.

(** A nondecreasing map of the finite cells commutes with the extrema. *)
Lemma extrema_lift (f : Qc -> Qc) (x : list xnum) :
  (forall p q, (p <= q)%Qc -> (f p <= f q)%Qc) ->
  Forall (fun v => finite_or_null v = true) x ->
  series_min (map (lift f) x) = lift f (series_min x) /\
  series_max (map (lift f) x) = lift f (series_max x).
Proof.
  intros Hf Hx. destruct (all_null_or_valid x) as [Hn|Hv].
  - pose proof (null_lift f x Hn) as Hn'. unfold series_min, series_max.
    now rewrite !(pick_all_null _ _ _ Hn), !(pick_all_null _ _ _ Hn').
  - destruct (extrema_Fin x Hx Hv) as [lo [hi [Hlo [Hhi Hb]]]].
    destruct (extrema_Fin _ (finite_or_null_lift f x Hx) (valid_lift f x Hv))
      as [lo' [hi' [Hlo' [Hhi' Hb']]]].
    destruct (series_min_spec x Hv) as [_ [Imin _]].
    destruct (series_max_spec x Hv) as [_ [Imax _]].
    destruct (series_min_spec _ (valid_lift f x Hv)) as [_ [Imin' _]].
    destruct (series_max_spec _ (valid_lift f x Hv)) as [_ [Imax' _]].
    rewrite Hlo in Imin. rewrite Hhi in Imax.
    rewrite Hlo' in Imin'. rewrite Hhi' in Imax'.
    rewrite Hlo, Hhi, Hlo', Hhi'. simpl.
    apply (in_map (lift f)) in Imin, Imax. simpl in Imin, Imax.
    destruct (in_lift _ _ _ Imin') as [p [Hp ->]].
    destruct (in_lift _ _ _ Imax') as [q [Hq ->]].
    split; f_equal; apply Qcle_antisym.
    + apply (Hb' _ Imin).
    + apply Hf, (Hb _ Hp).
    + apply Hf, (Hb _ Hq).
    + apply (Hb' _ Imax).
Qed.

Lemma rescaled_equal_extrema (a b q : Qc) :
  rescaled (Fin a) (Fin b) (Fin q) (Fin q) (Fin q) = NaN.
Proof.
  unfold rescaled. simpl.
  replace (q + - q)%Qc with 0%Qc by ring.
  replace ((b + - a) * 0)%Qc with 0%Qc by ring.
  reflexivity.
Qed.

(** The two shapes of a rescaled column whose valid cells are finite: all
    cells missing when the extrema coincide (or are missing), and the formula
    at every finite cell otherwise. *)
Lemma rescale_to_range_shape (a b : Qc) (x : list xnum) :
  Forall (fun v => finite_or_null v = true) x ->
  (series_min x = series_max x /\
   rescale_to_range (Fin a) (Fin b) x = map (fun _ => NaN) x) \/
  (exists lo hi,
     series_min x = Fin lo /\ series_max x = Fin hi /\ (lo < hi)%Qc /\
     rescale_to_range (Fin a) (Fin b) x = map (lift (qresc a b lo hi)) x).
Proof.
  intro Hx. rewrite rescale_to_range_map.
  destruct (all_null_or_valid x) as [Hn|Hv].
  - left. split.
    + unfold series_min, series_max. now rewrite !(pick_all_null _ _ _ Hn).
    + apply map_ext_in. intros v Hin. rewrite Forall_forall in Hn.
      specialize (Hn v Hin). destruct v; try discriminate.
      apply rescaled_NaN.
  - destruct (extrema_Fin x Hx Hv) as [lo [hi [Hlo [Hhi Hb]]]].
    destruct (series_min_spec x Hv) as [_ [Imin _]]. rewrite Hlo in Imin.
    rewrite Hlo, Hhi.
    destruct (Qcle_lt_or_eq lo hi (proj2 (Hb _ Imin))) as [Hlt|E].
    + right. exists lo, hi. repeat split; try assumption.
      apply map_ext_in. intros v Hin. rewrite Forall_forall in Hx.
      specialize (Hx v Hin). destruct v as [q| | |]; try discriminate.
      * apply rescaled_Fin. now apply Qclt_not_eq.
      * apply rescaled_NaN.
    + left. subst hi. split; [reflexivity|].
      apply map_ext_in. intros v Hin. rewrite Forall_forall in Hx.
      specialize (Hx v Hin). destruct v as [q| | |]; try discriminate.
      * assert (q = lo) as -> by (apply Qcle_antisym; apply (Hb _ Hin)).
        apply rescaled_equal_extrema.
      * apply rescaled_NaN.
Qed.

Lemma rescale_to_range_all_null (a b : Qc) (x : list xnum) :
  rescale_to_range (Fin a) (Fin b) (map (fun _ => NaN) x) = map (fun _ => NaN) x.
Proof.
  rewrite rescale_to_range_map, map_map. apply map_ext. intros _.
  apply rescaled_NaN.
Qed.

Lemma qresc_le (a b lo hi u v : Qc) :
  (a < b)%Qc -> (lo < hi)%Qc -> (u <= v)%Qc ->
  (qresc a b lo hi u <= qresc a b lo hi v)%Qc.
Proof.
  intros Hab Hd Huv. destruct (Qcle_lt_or_eq _ _ Huv) as [H| ->].
  - apply Qclt_le_weak. now apply qresc_lt.
  - apply Qcle_refl.
Qed.

Lemma affine_le (c d p q : Qc) :
  (0 < c)%Qc -> (p <= q)%Qc -> (c * p + d <= c * q + d)%Qc.
Proof.
  intros Hc H. apply Qcplus_le_compat; [|apply Qcle_refl].
  rewrite !(Qcmult_comm c). apply Qcmult_le_compat_r; [exact H|].
  now apply Qclt_le_weak.
Qed.

Lemma affine_lt (c d p q : Qc) :
  (0 < c)%Qc -> (p < q)%Qc -> (c * p + d < c * q + d)%Qc.
Proof.
  intros Hc H. apply Qcminus_pos.
  replace (c * q + d - (c * p + d))%Qc with (c * (q - p))%Qc by ring.
  apply Qcmult_pos; [exact Hc|]. exact (proj1 (Qcminus_pos _ _) H).
Qed.

Lemma affine_lift (c d : Qc) (x : list xnum) :
  Forall (fun v => finite_or_null v = true) x ->
  series_add (scalar_mul (Fin c) x) (Fin d) =
  map (lift (fun q => c * q + d)%Qc) x.
Proof.
  intro Hx. unfold series_add, scalar_mul. rewrite map_map.
  apply map_ext_in. intros v Hin. rewrite Forall_forall in Hx.
  specialize (Hx v Hin). now destruct v.
Qed.

End ExactShape.

(** In exact arithmetic, on a column whose valid cells are finite and with
    [a < b], rescaling a rescaled column changes nothing: its extrema are
    already [a] and [b] (or every cell is already missing). *)
Theorem rescale_to_range_exact_idempotent (a b : Qc) (x : list xnum) :
  (a < b)%Qc ->
  Forall (fun v => Exact.finite_or_null v = true) x ->
  rescale_to_range (Fin a) (Fin b) (rescale_to_range (Fin a) (Fin b) x) =
  rescale_to_range (Fin a) (Fin b) x.
Proof.
  intros Hab Hx.
  destruct (ExactShape.rescale_to_range_shape a b x Hx) as [[_ E]|[lo [hi [Hlo [Hhi [Hlt E]]]]]];
    rewrite E.
  - apply ExactShape.rescale_to_range_all_null.
  - pose proof (ExactShape.finite_or_null_lift (ExactFormula.qresc a b lo hi) x Hx) as Hy.
    destruct (ExactShape.extrema_lift (ExactFormula.qresc a b lo hi) x
                (fun p q => ExactShape.qresc_le a b lo hi p q Hab Hlt) Hx) as [Hmin Hmax].
    rewrite Hlo in Hmin. rewrite Hhi in Hmax. simpl in Hmin, Hmax.
    rewrite ExactFormula.qresc_lo in Hmin by now apply Qclt_not_eq.
    rewrite ExactFormula.qresc_hi in Hmax by now apply Qclt_not_eq.
    destruct (ExactShape.rescale_to_range_shape a b _ Hy)
      as [[E' _]|[lo' [hi' [Hlo' [Hhi' [_ E']]]]]].
    + rewrite Hmin, Hmax in E'. assert (Eab : a = b) by congruence.
      exfalso. now apply (Qclt_not_eq _ _ Hab).
    + rewrite E'. rewrite Hmin in Hlo'. rewrite Hmax in Hhi'.
      assert (lo' = a) as -> by congruence.
      assert (hi' = b) as -> by congruence.
      rewrite <- (ExactShape.lift_id (map (ExactShape.lift (ExactFormula.qresc a b lo hi)) x)) at 2.
      apply map_ext. intros [q| | |]; try reflexivity. simpl.
      f_equal. apply ExactFormula.qresc_id. now apply Qclt_not_eq.
Qed.

Lemma rescale_to_range_exact_idempotent_witness :
  let x := [Exact.of_Z 3; NaN; Exact.of_Z 1; Exact.of_Z 2] in
  rescale_to_range (Exact.of_Z 10) (Exact.of_Z 50)
    (rescale_to_range (Exact.of_Z 10) (Exact.of_Z 50) x) =
  rescale_to_range (Exact.of_Z 10) (Exact.of_Z 50) x.
Proof.
  refine (rescale_to_range_exact_idempotent
            (Q2Qc (inject_Z 10)) (Q2Qc (inject_Z 50))
            [Exact.of_Z 3; NaN; Exact.of_Z 1; Exact.of_Z 2] eq_refl _).
  repeat constructor.
Defined.

(** In exact arithmetic the rescaled column does not depend on the unit or
    the origin of the input: multiplying a column whose valid cells are
    finite by a positive constant and adding a constant to it, with the
    operators of a series, gives the same rescaled column. *)
Theorem rescale_to_range_exact_affine (a b c d : Qc) (x : list xnum) :
  (0 < c)%Qc ->
  Forall (fun v => Exact.finite_or_null v = true) x ->
  rescale_to_range (Fin a) (Fin b) (series_add (scalar_mul (Fin c) x) (Fin d)) =
  rescale_to_range (Fin a) (Fin b) x.
Proof.
  intros Hc Hx. rewrite (ExactShape.affine_lift c d x Hx).
  set (g := (fun q => c * q + d)%Qc).
  pose proof (ExactShape.finite_or_null_lift g x Hx) as Hy.
  destruct (ExactShape.extrema_lift g x (fun p q => ExactShape.affine_le c d p q Hc) Hx) as [Hmin Hmax].
  destruct (ExactShape.rescale_to_range_shape a b x Hx) as [[Eq E]|[lo [hi [Hlo [Hhi [Hlt E]]]]]];
    rewrite E.
  - destruct (ExactShape.rescale_to_range_shape a b _ Hy)
      as [[_ E']|[lo' [hi' [Hlo' [Hhi' [Hlt' _]]]]]].
    + rewrite E'. now rewrite map_map.
    + exfalso. rewrite Hmin in Hlo'. rewrite Hmax in Hhi'.
      rewrite <- Eq, Hlo' in Hhi'. assert (E'' : lo' = hi') by congruence.
      now apply (Qclt_not_eq _ _ Hlt').
  - rewrite Hlo in Hmin. rewrite Hhi in Hmax.
    change (ExactShape.lift g (Fin lo)) with (Fin (g lo)) in Hmin.
    change (ExactShape.lift g (Fin hi)) with (Fin (g hi)) in Hmax.
    destruct (ExactShape.rescale_to_range_shape a b _ Hy)
      as [[E' _]|[lo' [hi' [Hlo' [Hhi' [_ E']]]]]].
    + exfalso. rewrite Hmin, Hmax in E'.
      assert (E'' : g lo = g hi) by congruence.
      pose proof (ExactShape.affine_lt c d lo hi Hc Hlt) as Hg.
      change (g lo < g hi)%Qc in Hg.
      rewrite E'' in Hg. now apply (Qclt_not_eq _ _ Hg).
    + rewrite E', map_map. rewrite Hmin in Hlo'. rewrite Hmax in Hhi'.
      assert (lo' = g lo) as -> by congruence.
      assert (hi' = g hi) as -> by congruence.
      apply map_ext. intros [q| | |]; try reflexivity. simpl. f_equal.
      unfold ExactFormula.qresc, g. field.
      split.
      * apply ExactFormula.Qcminus_neq. now apply Qclt_not_eq.
      * replace (c * hi + d - (c * lo + d))%Qc with (c * (hi - lo))%Qc by ring.
        intro Z. apply Qcmult_integral in Z. destruct Z as [Z|Z].
        -- subst c. now apply (Qclt_not_eq _ _ Hc).
        -- revert Z. apply ExactFormula.Qcminus_neq. now apply Qclt_not_eq.
Qed.

Lemma rescale_to_range_exact_affine_witness :
  let x := [Exact.of_Z 3; NaN; Exact.of_Z 1; Exact.of_Z 2] in
  rescale_to_range (Exact.of_Z 10) (Exact.of_Z 50)
    (series_add (scalar_mul (Exact.of_Z 1000) x) (Exact.of_Z (-7))) =
  rescale_to_range (Exact.of_Z 10) (Exact.of_Z 50) x.
Proof.
  refine (rescale_to_range_exact_affine
            (Q2Qc (inject_Z 10)) (Q2Qc (inject_Z 50))
            (Q2Qc (inject_Z 1000)) (Q2Qc (inject_Z (-7)))
            [Exact.of_Z 3; NaN; Exact.of_Z 1; Exact.of_Z 2] eq_refl _).
  repeat constructor.
Defined.

(** ** Cells of the rescaled column in binary64 *)

Module Binary64Cells.

Lemma is_nan_true (v : float) : PrimFloat.is_nan v = true -> v = PrimFloat.nan.
Proof.
  intro H. apply Binary64Spec.of_spec_nan.
  destruct (Prim2SF v) eqn:E; try reflexivity; exfalso;
    unfold PrimFloat.is_nan in H; rewrite eqb_spec, E in H;
    rewrite Binary64Spec.SFeqb_refl in H; discriminate.
Qed.

Lemma rescaled_missing (a b lo hi : float) :
  rescaled a b lo hi PrimFloat.nan = PrimFloat.nan.
Proof.
  apply Binary64Spec.of_spec_nan. unfold rescaled. simpl.
  rewrite add_spec, div_spec, mul_spec, !sub_spec.
  change (Prim2SF PrimFloat.nan) with S754_nan.
  replace (SF64sub S754_nan (Prim2SF lo)) with S754_nan by reflexivity.
  replace (SF64mul (SF64sub (Prim2SF b) (Prim2SF a)) S754_nan) with S754_nan
    by (now destruct (SF64sub (Prim2SF b) (Prim2SF a))).
  reflexivity.
Qed.









End Binary64Cells.

(** In binary64 a missing cell of the column stays missing in the rescaled
    column, whatever the bounds and the other cells are. *)
Theorem rescale_to_range_binary64_keeps_missing
        (a b : float) (x : list float) (i : nat) (v : float) :
  nth_error x i = Some v -> PrimFloat.is_nan v = true ->
  nth_error (rescale_to_range a b x) i = Some PrimFloat.nan.
Proof.
  intros Hi Hv. rewrite rescale_to_range_nth, Hi. simpl. f_equal.
  rewrite (Binary64Cells.is_nan_true v Hv). apply Binary64Cells.rescaled_missing.
Qed.

Lemma rescale_to_range_binary64_keeps_missing_witness :
  let x := [0x1.8p+1; PrimFloat.nan; 0x1p+0; 0x1p+1]%float in
  nth_error (rescale_to_range 0x1.4p+3 0x1.9p+5 x)%float 1 = Some PrimFloat.nan.
Proof.
  refine (rescale_to_range_binary64_keeps_missing 0x1.4p+3 0x1.9p+5
            [0x1.8p+1; PrimFloat.nan; 0x1p+0; 0x1p+1]%float 1 PrimFloat.nan
            eq_refl eq_refl).
Defined.



(** * The map of the countries *)

(** A row of [dataset] with the two columns the map reads besides those of
    the summary. *)
Record Located (T : Type) : Type := {
  columns : Row T;
  longitude : T;
  latitude : T
}.
Arguments columns {T} _.
Arguments longitude {T} _.
Arguments latitude {T} _.

(** Two cells of the key column hold the same value; [drop_duplicates]
    takes two missing cells for the same value. *)
Definition same_key (k k' : option string) : bool :=
  match k, k' with
  | Some s, Some s' => String.eqb s s'
  | None, None => true
  | _, _ => false
  end.

(** [DataFrame.drop_duplicates(subset)] with [keep='first']: a row is kept
    unless an earlier row has the same value in the column. *)
Fixpoint drop_duplicates {A : Type} (key : A -> option string)
         (seen : list (option string)) (rows : list A) : list A :=
  match rows with
  | [] => []
  | r :: rest =>
      if existsb (same_key (key r)) seen
      then drop_duplicates key seen rest
      else r :: drop_duplicates key (key r :: seen) rest
  end.

(** [pd.merge(left, right, left_index=True, right_index=True)]: the inner
    join of two tables on their indexes; a row of [left] is paired with every
    row of [right] that has its key.  The rows are listed here in the order
    of [left]; what is proved of the joined table holds in any order of its
    rows. *)
Definition merge {A B : Type} (left : list (string * A))
           (right : list (option string * B)) : list (string * (A * B)) :=
  flat_map (fun l =>
              map (fun r => (fst l, (snd l, snd r)))
                  (filter (fun r => carries (fst l) (fst r)) right))
           left.

Section Map.

Context {T : Type} {N : Numeric T}.

(** [countries = dataset.drop_duplicates(['Country'])
                 [['Country','longitude','latitude']].set_index('Country')] *)
Definition countries (dataset : list (Located T))
  : list (option string * (T * T)) :=
  map (fun r => (Country (columns r), (longitude r, latitude r)))
      (drop_duplicates (fun r => Country (columns r)) [] dataset).

(** [mapped_stats_country = pd.merge(stats_country, countries,
                                     right_index=True, left_index=True)];
    there is no table to join when [stats_country] has raised. *)
Definition mapped_stats_country (dataset : list (Located T))
  : result (list (string * (Stats.t T * (T * T)))) :=
  match stats_country (map columns dataset) with
  | Ok table => Ok (merge table (countries dataset))
  | ValueError => ValueError
  end.

(** [mapped_stats_country['count']]: the statistics are cells of one table,
    the count is a number like the others. *)
Definition count_column (rows : list (string * (Stats.t T * (T * T))))
  : list T :=
  map (fun r => of_count (Stats.count (fst (snd r)))) rows.

(** [mapped_stats_country['scaledCount'] =
       rescale_to_range(a=10, b=50, x=mapped_stats_country['count'])] *)
Definition scaledCount (dataset : list (Located T)) : result (list T) :=
  match mapped_stats_country dataset with
  | Ok rows =>
      Ok (rescale_to_range (of_count 10) (of_count 50) (count_column rows))
  | ValueError => ValueError
  end.

End Map.

(** ** The first row of every country *)

Lemma same_key_eq (k k' : option string) : same_key k k' = true <-> k = k'.
Proof.
  destruct k as [s|], k' as [s'|]; simpl; try (split; congruence).
  rewrite String.eqb_eq. split; congruence.
Qed.

Lemma seen_false (k : option string) (seen : list (option string)) :
  existsb (same_key k) seen = false <-> ~ In k seen.
Proof.
  split.
  - intros H Hin. assert (E : existsb (same_key k) seen = true).
    { apply existsb_exists. exists k. split; [exact Hin|]. now apply same_key_eq. }
    congruence.
  - intro H. destruct (existsb (same_key k) seen) eqn:E; [|reflexivity].
    exfalso. apply H. apply existsb_exists in E. destruct E as [k' [Hin E]].
    apply same_key_eq in E. now subst.
Qed.

(** A row at position [i] that no earlier row shares its key with. *)
Definition first_of {A : Type} (key : A -> option string) (rows : list A)
           (i : nat) (r : A) : Prop :=
  nth_error rows i = Some r /\
  forall j r', j < i -> nth_error rows j = Some r' -> key r' <> key r.

Lemma first_exists {A : Type} (key : A -> option string) (rows : list A)
      (r : A) :
  In r rows -> exists i r', first_of key rows i r' /\ key r' = key r.
Proof.
  induction rows as [|r0 rest IH]; intros Hin; [destruct Hin|].
  destruct (same_key (key r0) (key r)) eqn:E.
  - apply same_key_eq in E. exists 0, r0. split; [split|]; auto.
    intros j r' Hj. lia.
  - assert (Hne : key r0 <> key r).
    { intro Ek. apply same_key_eq in Ek. congruence. }
    destruct Hin as [->|Hin]; [congruence|].
    destruct (IH Hin) as [i [r' [[Hi Hf] Ek]]].
    exists (S i), r'. split; [split|]; auto.
    intros [|j] r'' Hj Hr''; simpl in Hr''.
    + injection Hr'' as <-. congruence.
    + apply (Hf j); [lia|assumption].
Qed.

Lemma drop_duplicates_spec {A : Type} (key : A -> option string)
      (rows : list A) (seen : list (option string)) (r : A) :
  In r (drop_duplicates key seen rows) <->
  exists i, first_of key rows i r /\ ~ In (key r) seen.
Proof.
  revert seen. induction rows as [|r0 rest IH]; intro seen; simpl.
  - split; [intros []|]. intros [i [[Hi _] _]]. now destruct i.
  - destruct (existsb (same_key (key r0)) seen) eqn:E.
    + assert (Hs : In (key r0) seen).
      { apply existsb_exists in E. destruct E as [k' [Hin E]].
        apply same_key_eq in E. now rewrite E. }
      rewrite IH. split.
      * intros [i [[Hi Hf] Hn]]. exists (S i). split; [split|]; auto.
        intros [|j] r' Hj Hr'; simpl in Hr'.
        -- injection Hr' as <-. intro Ek. apply Hn. now rewrite <- Ek.
        -- apply (Hf j); [lia|assumption].
      * intros [[|i] [[Hi Hf] Hn]]; simpl in Hi.
        -- injection Hi as <-. contradiction.
        -- exists i. split; [split|]; auto.
           intros j r' Hj Hr'. apply (Hf (S j)); [lia|exact Hr'].
    + apply seen_false in E. simpl. rewrite IH. split.
      * intros [<-|[i [[Hi Hf] Hn]]].
        -- exists 0. split; [split|]; auto. intros j r' Hj. lia.
        -- exists (S i). split; [split|]; auto.
           ++ intros [|j] r' Hj Hr'; simpl in Hr'.
              ** injection Hr' as <-. intro Ek. apply Hn. left. exact Ek.
              ** apply (Hf j); [lia|assumption].
           ++ intro Hs. apply Hn. now right.
      * intros [[|i] [[Hi Hf] Hn]]; simpl in Hi.
        -- left. congruence.
        -- right. exists i. split; [split|]; auto.
           ++ intros j r' Hj Hr'. apply (Hf (S j)); [lia|exact Hr'].
           ++ intros [Ek|Hs]; [|contradiction].
              apply (Hf 0 r0); [lia|reflexivity|exact Ek].
Qed.

Lemma drop_duplicates_NoDup {A : Type} (key : A -> option string)
      (rows : list A) (seen : list (option string)) :
  NoDup (map key (drop_duplicates key seen rows)).
Proof.
  revert seen. induction rows as [|r0 rest IH]; intro seen; simpl.
  - constructor.
  - destruct (existsb (same_key (key r0)) seen); [apply IH|].
    simpl. constructor; [|apply IH].
    rewrite in_map_iff. intros [r [Ek Hin]].
    apply drop_duplicates_spec in Hin. destruct Hin as [_ [_ Hn]].
    apply Hn. left. now rewrite Ek.
Qed.

Section MapFacts.

Context {T : Type} {N : Numeric T}.

Lemma countries_keys (dataset : list (Located T)) :
  map fst (countries dataset) =
  map (fun r => Country (columns r))
      (drop_duplicates (fun r => Country (columns r)) [] dataset).
Proof. unfold countries. now rewrite map_map. Qed.

Lemma countries_row (dataset : list (Located T)) (key : option string)
      (lon lat : T) :
  In (key, (lon, lat)) (countries dataset) <->
  exists i r, first_of (fun r => Country (columns r)) dataset i r /\
              Country (columns r) = key /\
              longitude r = lon /\ latitude r = lat.
Proof.
  unfold countries. rewrite in_map_iff. split.
  - intros [r [E Hin]]. apply drop_duplicates_spec in Hin.
    destruct Hin as [i [Hf _]]. exists i, r. injection E as E1 E2 E3. auto.
  - intros [i [r [Hf [E1 [E2 E3]]]]]. exists r. split; [congruence|].
    apply drop_duplicates_spec. exists i. split; [exact Hf|]. intros [].
Qed.

End MapFacts.

(** [countries] has one row for every value of the [Country] column, the
    missing value included: no index value comes twice, and the coordinates
    of a value are those of the first row of [dataset] that carries it. *)
Theorem countries_first_rows {T : Type} {N : Numeric T}
        (dataset : list (Located T)) :
  NoDup (map fst (countries dataset)) /\
  (forall key, In key (map fst (countries dataset)) <->
               In key (map (fun r => Country (columns r)) dataset)) /\
  (forall key lon lat,
     In (key, (lon, lat)) (countries dataset) <->
     exists i r,
       nth_error dataset i = Some r /\
       (forall j r', j < i -> nth_error dataset j = Some r' ->
                     Country (columns r') <> key) /\
       Country (columns r) = key /\ longitude r = lon /\ latitude r = lat).
Proof.
  split; [|split].
  - rewrite countries_keys. apply drop_duplicates_NoDup.
  - intro key. rewrite countries_keys, !in_map_iff. split.
    + intros [r [E Hin]]. apply drop_duplicates_spec in Hin.
      destruct Hin as [i [[Hi _] _]]. exists r. split; [exact E|].
      eapply nth_error_In; eauto.
    + intros [r [E Hin]]. subst key.
      destruct (first_exists (fun r => Country (columns r)) dataset r Hin)
        as [i' [r' [Hf E]]].
      exists r'. split; [exact E|].
      apply drop_duplicates_spec. exists i'. split; [exact Hf|]. intros [].
  - intros key lon lat. rewrite countries_row. split.
    + intros [i [r [[Hi Hf] [E1 [E2 E3]]]]]. exists i, r. subst key. auto 6.
    + intros [i [r [Hi [Hf [E1 [E2 E3]]]]]]. exists i, r. subst key.
      split; [split|]; auto.
Qed.

(** ** The joined table *)

Lemma carries_eq (k : string) (key : option string) :
  carries k key = true <-> key = Some k.
Proof.
  destruct key as [k'|]; simpl; [|split; discriminate].
  rewrite String.eqb_eq. split; congruence.
Qed.

Lemma merge_member {A B : Type} (left : list (string * A))
      (right : list (option string * B)) (k : string) (a : A) (b : B) :
  In (k, (a, b)) (merge left right) <->
  In (k, a) left /\ In (Some k, b) right.
Proof.
  unfold merge. rewrite in_flat_map. split.
  - intros [[k' a'] [Hl Hin]]. simpl in Hin. apply in_map_iff in Hin.
    destruct Hin as [[key b'] [E Hr]]. simpl in E. injection E as -> -> ->.
    apply filter_In in Hr. destruct Hr as [Hr Hc]. simpl in Hc.
    apply carries_eq in Hc. subst key. auto.
  - intros [Hl Hr]. exists (k, a). split; [exact Hl|]. simpl.
    apply in_map_iff. exists (Some k, b). split; [reflexivity|].
    apply filter_In. split; [exact Hr|]. simpl. apply String.eqb_refl.
Qed.

Lemma filter_single {B : Type} (right : list (option string * B))
      (k : string) (b : B) :
  NoDup (map fst right) -> In (Some k, b) right ->
  filter (fun r => carries k (fst r)) right = [(Some k, b)].
Proof.
  induction right as [|[key b'] right IH]; intros Hnd Hin; [destruct Hin|].
  simpl in *. inversion Hnd as [|? ? Hout Hnd']; subst.
  destruct (carries k key) eqn:E.
  - apply carries_eq in E. subst key.
    destruct Hin as [Hin|Hin].
    + injection Hin as ->. f_equal.
      assert (Hnone : forall r, In r right -> carries k (fst r) = false).
      { intros [key' b''] Hr. simpl. destruct (carries k key') eqn:E'; auto.
        apply carries_eq in E'. subst key'. exfalso. apply Hout.
        apply in_map_iff. now exists (Some k, b''). }
      clear - Hnone. induction right as [|r right IH]; [reflexivity|].
      simpl. rewrite (Hnone r (or_introl eq_refl)). apply IH.
      intros r' Hr'. apply Hnone. now right.
    + exfalso. apply Hout. apply in_map_iff. now exists (Some k, b).
  - destruct Hin as [Hin|Hin].
    + injection Hin as -> ->. simpl in E. rewrite String.eqb_refl in E.
      discriminate.
    + now apply IH.
Qed.

(** When every key of [left] has a row in [right] and no key of [right]
    comes twice, the join has the rows of [left], each once. *)
Lemma merge_left {A B : Type} (left : list (string * A))
      (right : list (option string * B)) :
  NoDup (map fst right) ->
  (forall k, In k (map fst left) -> In (Some k) (map fst right)) ->
  map (fun r => (fst r, fst (snd r))) (merge left right) = left.
Proof.
  intros Hnd. induction left as [|[k a] left IH]; intro Hall; [reflexivity|].
  unfold merge. simpl. fold (merge left right).
  destruct (proj1 (in_map_iff _ _ _) (Hall k (or_introl eq_refl)))
    as [[key b] [E Hin]].
  simpl in E. subst key. rewrite (filter_single right k b Hnd Hin).
  simpl. f_equal. apply IH. intros k' Hk'. apply Hall. now right.
Qed.

Section JoinedTable.

Context {T : Type} {N : Numeric T}.

Lemma mapped_stats_country_Ok (dataset : list (Located T))
      (rows : list (string * (Stats.t T * (T * T)))) :
  mapped_stats_country dataset = Ok rows <->
  exists table, stats_country (map columns dataset) = Ok table /\
                rows = merge table (countries dataset).
Proof.
  unfold mapped_stats_country.
  destruct (stats_country (map columns dataset)) as [table|].
  - split.
    + intro E. exists table. split; [reflexivity|congruence].
    + intros [table' [E ->]]. congruence.
  - split; [discriminate|]. intros [table' [E _]]. discriminate.
Qed.

Lemma mapped_stats_country_left (dataset : list (Located T)) :
  map (fun r => (fst r, fst (snd r)))
      (merge (apply_get_stats (map columns dataset)) (countries dataset)) =
  apply_get_stats (map columns dataset).
Proof.
  apply merge_left.
  - rewrite countries_keys. apply drop_duplicates_NoDup.
  - intros k Hk. rewrite stats_country_keys in Hk.
    destruct (dataset_country_inv (map columns dataset)) as [_ [_ Hkeys]].
    apply Hkeys in Hk. destruct Hk as [row [Hrow Ek]].
    apply in_map_iff in Hrow. destruct Hrow as [r [<- Hr]].
    destruct (first_exists (fun r => Country (columns r)) dataset r Hr)
      as [i [r' [Hf E]]].
    rewrite countries_keys. apply in_map_iff. exists r'.
    split; [congruence|].
    apply drop_duplicates_spec. exists i. split; [exact Hf|]. intros [].
Qed.

End JoinedTable.

(** When [stats_country] has a table, the join has one too, and it loses no
    country of the summary and repeats none: the joined table has the rows
    of [stats_country], each once, and a row has the coordinates of the
    first row of [dataset] with its country. *)
Theorem mapped_stats_country_rows {T : Type} {N : Numeric T}
        (dataset : list (Located T)) (table : list (string * Stats.t T)) :
  stats_country (map columns dataset) = Ok table ->
  exists rows,
    mapped_stats_country dataset = Ok rows /\
    Permutation (map (fun r => (fst r, fst (snd r))) rows) table /\
    forall k s lon lat,
      In (k, (s, (lon, lat))) rows ->
      exists i r,
        nth_error dataset i = Some r /\
        (forall j r', j < i -> nth_error dataset j = Some r' ->
                      Country (columns r') <> Some k) /\
        Country (columns r) = Some k /\ longitude r = lon /\ latitude r = lat.
Proof.
  intro Htab. exists (merge table (countries dataset)).
  split; [apply mapped_stats_country_Ok; now exists table|].
  apply stats_country_Ok in Htab. subst table. split.
  - now rewrite mapped_stats_country_left.
  - intros k s lon lat Hin.
    apply merge_member in Hin. destruct Hin as [_ Hin].
    apply countries_row in Hin.
    destruct Hin as [i [r [[Hi Hf] [E1 [E2 E3]]]]].
    exists i, r. repeat split; auto.
    intros j r' Hj Hr'. rewrite <- E1. now apply (Hf j).
Qed.

Lemma mapped_stats_country_rows_witness :
  let dataset :=
    [ {| columns := {| Country := Some "US"%string; Overall := 10%float |};
         longitude := (-100)%float; latitude := 40%float |};
      {| columns := {| Country := None; Overall := 11%float |};
         longitude := 0%float; latitude := 0%float |};
      {| columns := {| Country := Some "BE"%string; Overall := 12%float |};
         longitude := 4%float; latitude := 50%float |};
      {| columns := {| Country := Some "US"%string; Overall := 14%float |};
         longitude := (-90)%float; latitude := 30%float |} ] in
  exists rows,
    mapped_stats_country dataset = Ok rows /\
    Permutation (map (fun r => (fst r, fst (snd r))) rows)
      [ ("BE"%string, Stats.make 12 12 1 12)%float;
        ("US"%string, Stats.make 10 14 2 12)%float ] /\
    forall k s lon lat,
      In (k, (s, (lon, lat))) rows ->
      exists i r,
        nth_error dataset i = Some r /\
        (forall j r', j < i -> nth_error dataset j = Some r' ->
                      Country (columns r') <> Some k) /\
        Country (columns r) = Some k /\ longitude r = lon /\ latitude r = lat.
Proof.
  intro dataset.
  refine (mapped_stats_country_rows dataset
            [ ("BE"%string, Stats.make 12 12 1 12)%float;
              ("US"%string, Stats.make 10 14 2 12)%float ] eq_refl).
Defined.

(** ** The sizes of the markers *)

Lemma in_combine_map {A B : Type} (h : A -> B) (l : list A) (r : A) (v : B) :
  In (r, v) (combine l (map h l)) -> In r l /\ v = h r.
Proof.
  induction l as [|a l IH]; simpl; [intros []|].
  intros [E|Hin].
  - injection E as -> <-. auto.
  - destruct (IH Hin). auto.
Qed.

(** In binary64, when every country of the map has the same count, and so
    when there is one country only, every marker size is missing: the range
    of the counts is zero and the division gives NaN. *)
Theorem scaledCount_binary64_equal_counts
        (dataset : list (Located float))
        (rows : list (string * (Stats.t float * (float * float)))) :
  mapped_stats_country dataset = Ok rows ->
  (forall r r', In r rows -> In r' rows ->
                Stats.count (fst (snd r)) = Stats.count (fst (snd r'))) ->
  scaledCount dataset = Ok (map (fun _ => PrimFloat.nan) rows).
Proof.
  intros Hrows Heq. unfold scaledCount. rewrite Hrows. f_equal.
  rewrite rescale_to_range_map.
  unfold count_column at 3. rewrite map_map.
  apply map_ext_in. intros r Hr.
  assert (Hcell : forall better,
            fold_left (pick better) (count_column rows) PrimFloat.nan =
            of_count (Stats.count (fst (snd r))) \/
            fold_left (pick better) (count_column rows) PrimFloat.nan =
            PrimFloat.nan).
  { intro better.
    destruct (fold_pick_member better (count_column rows) PrimFloat.nan)
      as [E|Hin]; [now right|left].
    unfold count_column in Hin at 2. apply in_map_iff in Hin.
    destruct Hin as [r' [E Hr']]. rewrite <- E.
    now rewrite (Heq r' r Hr' Hr). }
  apply Binary64Spec.rescaled_degenerate; apply Hcell.
Qed.

Lemma scaledCount_binary64_equal_counts_witness :
  let dataset :=
    [ {| columns := {| Country := Some "US"%string; Overall := 10%float |};
         longitude := (-100)%float; latitude := 40%float |};
      {| columns := {| Country := Some "BE"%string; Overall := 12%float |};
         longitude := 4%float; latitude := 50%float |} ] in
  scaledCount dataset = Ok [PrimFloat.nan; PrimFloat.nan].
Proof.
  refine (scaledCount_binary64_equal_counts
    [ {| columns := {| Country := Some "US"%string; Overall := 10%float |};
         longitude := (-100)%float; latitude := 40%float |};
      {| columns := {| Country := Some "BE"%string; Overall := 12%float |};
         longitude := 4%float; latitude := 50%float |} ]
    [ ("BE"%string, (Stats.make 12 12 1 12, (4, 50)));
      ("US"%string, (Stats.make 10 10 1 10, (-100, 40))) ]%float eq_refl _).
  intros r r' [<-|[<-|[]]] [<-|[<-|[]]]; reflexivity.
Defined.

Module ExactCounts.

Import Exact ExactOrder ExactSeries ExactFormula ExactRescale ExactMean ExactShape.

Lemma nQ_le (n m : nat) : n <= m -> (nQ n <= nQ m)%Qc.
Proof.
  intro H. unfold nQ, Qcle, Q2Qc. cbn [this]. rewrite !Qred_correct.
  rewrite <- Zle_Qle. lia.
Qed.

Lemma nQ_lt (n m : nat) : n < m -> (nQ n < nQ m)%Qc.
Proof.
  intro H. unfold nQ, Qclt, Q2Qc. cbn [this]. rewrite !Qred_correct.
  rewrite <- Zlt_Qlt. lia.
Qed.

Lemma nQ_inj (n m : nat) : nQ n = nQ m -> n = m.
Proof.
  intro E. destruct (Nat.lt_trichotomy n m) as [H|[H|H]]; [|assumption|];
    apply nQ_lt in H; rewrite E in H; exfalso;
    now apply (Qclt_not_eq _ _ H).
Qed.

End ExactCounts.

(** In exact arithmetic, when two countries of the map have different
    counts, the marker sizes lie between 10 and 50 and follow the counts: a
    country with no fewer beers has no smaller a marker, and one with more
    beers a larger one. *)
Theorem scaledCount_exact_order
        (dataset : list (Located xnum))
        (rows : list (string * (Stats.t xnum * (xnum * xnum))))
        (sizes : list xnum) :
  mapped_stats_country dataset = Ok rows ->
  scaledCount dataset = Ok sizes ->
  (exists r r', In r rows /\ In r' rows /\
                Stats.count (fst (snd r)) <> Stats.count (fst (snd r'))) ->
  forall ri vi rj vj,
    In (ri, vi) (combine rows sizes) ->
    In (rj, vj) (combine rows sizes) ->
    nleb (of_count 10) vi = true /\ nleb vi (of_count 50) = true /\
    (Stats.count (fst (snd ri)) <= Stats.count (fst (snd rj)) ->
     nleb vi vj = true) /\
    (Stats.count (fst (snd ri)) < Stats.count (fst (snd rj)) ->
     nltb vi vj = true).
Proof.
  intros Hrows Hsizes [r [r' [Hr [Hr' Hne]]]].
  set (cnt := fun r : string * (Stats.t xnum * (xnum * xnum)) =>
                ExactMean.nQ (Stats.count (fst (snd r)))).
  assert (Hcol : count_column rows = map (fun r => Fin (cnt r)) rows)
    by reflexivity.
  assert (Hfin : Forall (fun v => Exact.finite_or_null v = true)
                        (count_column rows)).
  { rewrite Hcol. apply Forall_map, Forall_forall. reflexivity. }
  assert (Hval : Exists (fun v => Exact.is_nan v = false) (count_column rows)).
  { rewrite Hcol. apply Exists_map, Exists_exists. now exists r. }
  destruct (ExactRescale.extrema_Fin _ Hfin Hval) as [lo [hi [Hlo [Hhi Hb]]]].
  assert (Hbr : forall r0, In r0 rows -> (lo <= cnt r0)%Qc /\ (cnt r0 <= hi)%Qc).
  { intros r0 H0. apply Hb. rewrite Hcol.
    apply (in_map (fun r => Fin (cnt r))). exact H0. }
  assert (Hlt : (lo < hi)%Qc).
  { destruct (Qcle_lt_or_eq lo hi) as [?|E]; [|assumption|].
    - eapply Qcle_trans; apply (Hbr r Hr).
    - exfalso. subst hi. apply Hne. apply ExactCounts.nQ_inj.
      transitivity lo; [|symmetry]; apply Qcle_antisym;
        try apply (Hbr r Hr); apply (Hbr r' Hr'). }
  assert (Hsc : sizes =
                map (fun r => Fin (ExactFormula.qresc (ExactMean.nQ 10)
                                     (ExactMean.nQ 50) lo hi (cnt r))) rows).
  { unfold scaledCount in Hsizes. rewrite Hrows in Hsizes.
    injection Hsizes as <-.
    change (of_count 10) with (Fin (ExactMean.nQ 10)).
    change (of_count 50) with (Fin (ExactMean.nQ 50)).
    rewrite rescale_to_range_map, Hlo, Hhi, Hcol, map_map.
    apply map_ext. intro r0. apply ExactRescale.rescaled_Fin.
    now apply Qclt_not_eq. }
  assert (Hab : (ExactMean.nQ 10 < ExactMean.nQ 50)%Qc)
    by (apply ExactCounts.nQ_lt; lia).
  intros ri vi rj vj Hi Hj. rewrite Hsc in Hi, Hj.
  apply in_combine_map in Hi, Hj. destruct Hi as [Hi ->], Hj as [Hj ->].
  destruct (Hbr ri Hi) as [Li Ui].
  destruct (ExactFormula.qresc_bounds (ExactMean.nQ 10) (ExactMean.nQ 50)
              lo hi (cnt ri) (Qclt_le_weak _ _ Hab) Hlt Li Ui) as [B1 B2].
  split; [now apply ExactOrder.leb_Fin|]. split; [now apply ExactOrder.leb_Fin|].
  split; intro Hc.
  - apply ExactOrder.leb_Fin. apply ExactShape.qresc_le; auto.
    now apply ExactCounts.nQ_le.
  - apply ExactOrder.ltb_Fin. apply ExactFormula.qresc_lt; auto.
    now apply ExactCounts.nQ_lt.
Qed.

Lemma scaledCount_exact_order_witness :
  let dataset :=
    [ {| columns := {| Country := Some "US"%string; Overall := Exact.of_Z 10 |};
         longitude := Exact.of_Z (-100); latitude := Exact.of_Z 40 |};
      {| columns := {| Country := Some "BE"%string; Overall := Exact.of_Z 12 |};
         longitude := Exact.of_Z 4; latitude := Exact.of_Z 50 |};
      {| columns := {| Country := Some "US"%string; Overall := Exact.of_Z 14 |};
         longitude := Exact.of_Z (-90); latitude := Exact.of_Z 30 |} ] in
  let sizes :=
    match scaledCount dataset with Ok sizes => sizes | ValueError => [] end in
  scaledCount dataset = Ok sizes /\
  nltb (nth 0 sizes NaN) (nth 1 sizes NaN) = true.
Proof.
  intros dataset sizes.
  set (rows := match mapped_stats_country dataset with
               | Ok rows => rows
               | ValueError => []
               end).
  set (d := (EmptyString, (Stats.make NaN NaN 0 NaN, (NaN, NaN)))).
  split; [reflexivity|].
  refine (proj2 (proj2 (proj2
            (scaledCount_exact_order dataset rows sizes eq_refl eq_refl _
               (nth 0 rows d) (nth 0 sizes NaN)
               (nth 1 rows d) (nth 1 sizes NaN) _ _))) _).
  - exists (nth 0 rows d), (nth 1 rows d).
    split; [left; reflexivity|]. split; [right; left; reflexivity|].
    vm_compute. discriminate.
  - left. reflexivity.
  - right. left. reflexivity.
  - vm_compute. lia.
Defined.

(** * The order of the rows *)

(** Two ascending lists of keys with the same members are the same list. *)
Lemma ascending_unique (l l' : list string) :
  ascending l -> ascending l' -> (forall k, In k l <-> In k l') -> l = l'.
Proof.
  intro Hl. revert l'. induction Hl as [|k l Hs IH Hall]; intros l' Hl' Hmem.
  - destruct l' as [|k' l']; [reflexivity|].
    exfalso. apply (proj2 (Hmem k')). now left.
  - destruct Hl' as [|k' l' Hs' Hall'].
    + exfalso. apply (proj1 (Hmem k)). now left.
    + rewrite Forall_forall in Hall, Hall'.
      assert (E : k = k').
      { destruct (proj1 (Hmem k) (or_introl eq_refl)) as [E|Hin]; [now subst|].
        destruct (proj2 (Hmem k') (or_introl eq_refl)) as [E|Hin']; [assumption|].
        pose proof (string_compare_lt_trans _ _ _ (Hall _ Hin') (Hall' _ Hin)) as C.
        rewrite string_compare_refl in C. discriminate. }
      subst k'. f_equal. apply IH; [exact Hs'|].
      pose proof (ascending_NoDup _ (SSorted_cons k Hs (proj2 (Forall_forall _ _) Hall)))
        as Hnd.
      pose proof (ascending_NoDup _ (SSorted_cons k Hs' (proj2 (Forall_forall _ _) Hall')))
        as Hnd'.
      inversion Hnd; inversion Hnd'; subst.
      intro k0. split; intro H0.
      * destruct (proj1 (Hmem k0) (or_intror H0)) as [E|?]; [|assumption].
        subst k0. contradiction.
      * destruct (proj2 (Hmem k0) (or_intror H0)) as [E|?]; [|assumption].
        subst k0. contradiction.
Qed.

Section RowsOfCountry.

Context {T : Type} {N : Numeric T}.

(** The table, row by row: the keys of the grouping, each with the
    statistics of the cells of its rows. *)
Lemma stats_country_by_key (dataset : list (Row T)) :
  apply_get_stats dataset =
  map (fun k => (k, get_stats (map Overall
                   (filter (fun row => carries k (Country row)) dataset))))
      (map fst (grouper (dataset_country dataset))).
Proof.
  destruct (dataset_country_inv dataset) as [_ [Hrows _]].
  unfold apply_get_stats, apply. rewrite map_map.
  apply map_ext_in. intros [k rows] Hin. simpl. f_equal. f_equal.
  apply (Hrows k rows Hin).
Qed.

Lemma dataset_country_keys_perm (dataset dataset' : list (Row T)) :
  Permutation dataset dataset' ->
  map fst (grouper (dataset_country dataset)) =
  map fst (grouper (dataset_country dataset')).
Proof.
  intro Hp.
  destruct (dataset_country_inv dataset) as [Hs [_ Hk]].
  destruct (dataset_country_inv dataset') as [Hs' [_ Hk']].
  apply ascending_unique; try assumption.
  intro k. rewrite Hk, Hk'. split; intros [row [Hin E]]; exists row; split;
    try assumption.
  - now apply (Permutation_in _ Hp).
  - now apply (Permutation_in _ (Permutation_sym Hp)).
Qed.

End RowsOfCountry.

Lemma filter_perm {A : Type} (p : A -> bool) (l l' : list A) :
  Permutation l l' -> Permutation (filter p l) (filter p l').
Proof.
  induction 1 as [|a l l' _ IH|a b l|l l' l'' _ IH1 _ IH2]; simpl.
  - constructor.
  - destruct (p a); [now constructor|assumption].
  - destruct (p a), (p b); try reflexivity; now constructor.
  - now transitivity (filter p l').
Qed.

Module ExactOrderOfRows.

Import Exact ExactOrder ExactSeries.

Lemma add_assoc (x y z : xnum) : add (add x y) z = add x (add y z).
Proof.
  destruct x, y, z; simpl; try reflexivity.
  now rewrite Qcplus_assoc.
Qed.

Lemma fold_add_perm (l l' : list xnum) :
  Permutation l l' -> forall acc, fold_left add l acc = fold_left add l' acc.
Proof.
  induction 1 as [|a l l' _ IH|a b l|l l' l'' _ IH1 _ IH2]; intro acc; simpl.
  - reflexivity.
  - apply IH.
  - f_equal. rewrite !add_assoc. f_equal. apply xadd_comm.
  - now rewrite IH1.
Qed.

Lemma valid_perm (x x' : list xnum) :
  Permutation x x' ->
  Exists (fun v => is_nan v = false) x -> Exists (fun v => is_nan v = false) x'.
Proof.
  intros Hp H. apply Exists_exists in H. destruct H as [v [Hin Hv]].
  apply Exists_exists. exists v. split; [|exact Hv].
  now apply (Permutation_in _ Hp).
Qed.

Lemma null_perm (x x' : list xnum) :
  Permutation x x' ->
  Forall (fun v => isnull v = true) x -> Forall (fun v => isnull v = true) x'.
Proof.
  intros Hp H. rewrite Forall_forall in *. intros v Hin.
  apply H. now apply (Permutation_in _ (Permutation_sym Hp)).
Qed.

Lemma series_min_perm (x x' : list xnum) :
  Permutation x x' -> series_min x = series_min x'.
Proof.
  intro Hp. destruct (ExactRescale.all_null_or_valid x) as [Hn|Hv].
  - unfold series_min.
    now rewrite (pick_all_null _ _ _ Hn), (pick_all_null _ _ _ (null_perm _ _ Hp Hn)).
  - destruct (series_min_spec x Hv) as [V [I L]].
    destruct (series_min_spec x' (valid_perm _ _ Hp Hv)) as [V' [I' L']].
    apply ExactExtrema.leb_antisym.
    + apply L; [|exact V']. now apply (Permutation_in _ (Permutation_sym Hp)).
    + apply L'; [|exact V]. now apply (Permutation_in _ Hp).
Qed.

Lemma series_max_perm (x x' : list xnum) :
  Permutation x x' -> series_max x = series_max x'.
Proof.
  intro Hp. destruct (ExactRescale.all_null_or_valid x) as [Hn|Hv].
  - unfold series_max.
    now rewrite (pick_all_null _ _ _ Hn), (pick_all_null _ _ _ (null_perm _ _ Hp Hn)).
  - destruct (series_max_spec x Hv) as [V [I L]].
    destruct (series_max_spec x' (valid_perm _ _ Hp Hv)) as [V' [I' L']].
    apply ExactExtrema.leb_antisym.
    + apply L'; [|exact V]. now apply (Permutation_in _ Hp).
    + apply L; [|exact V']. now apply (Permutation_in _ (Permutation_sym Hp)).
Qed.

Lemma series_count_perm (x x' : list xnum) :
  Permutation x x' -> series_count x = series_count x'.
Proof.
  intro Hp. rewrite !series_count_filter. now apply filter_length_perm.
Qed.

Lemma series_mean_perm (x x' : list xnum) :
  Permutation x x' -> series_mean x = series_mean x'.
Proof.
  intro Hp. unfold series_mean, series_sum.
  rewrite (series_count_perm _ _ Hp).
  now rewrite (fold_add_perm _ _ (Permutation_map _ Hp : Permutation (fillna zero x) (fillna zero x'))).
Qed.

Lemma get_stats_perm (x x' : list xnum) :
  Permutation x x' -> get_stats x = get_stats x'.
Proof.
  intro Hp. unfold get_stats.
  now rewrite (series_min_perm _ _ Hp), (series_max_perm _ _ Hp),
              (series_count_perm _ _ Hp), (series_mean_perm _ _ Hp).
Qed.

End ExactOrderOfRows.

(** In exact arithmetic the outcome of [stats_country] does not depend on
    the order of the rows of [dataset]: the same rows in another order give
    the same error when no row has a country, and otherwise the same
    countries with the same statistics.  (In binary64 the mean is a rounded
    sum, which depends on the order of its terms.) *)
Theorem stats_country_exact_row_order (dataset dataset' : list (Row xnum)) :
  Permutation dataset dataset' ->
  stats_country dataset' = stats_country dataset.
Proof.
  intro Hp. unfold stats_country. f_equal. rewrite !stats_country_by_key.
  rewrite (dataset_country_keys_perm _ _ Hp).
  apply map_ext. intro k. f_equal.
  apply ExactOrderOfRows.get_stats_perm.
  apply Permutation_map, filter_perm. now apply Permutation_sym.
Qed.

Lemma stats_country_exact_row_order_witness :
  let r1 := {| Country := Some "US"%string; Overall := Exact.of_Z 10 |} in
  let r2 := {| Country := Some "BE"%string; Overall := Exact.of_Z 12 |} in
  let r3 := {| Country := Some "US"%string; Overall := Exact.of_Z 14 |} in
  stats_country [r3; r1; r2] = stats_country [r1; r2; r3].
Proof.
  intros r1 r2 r3.
  refine (stats_country_exact_row_order [r1; r2; r3] [r3; r1; r2] _).
  apply Permutation_sym.
  apply (Permutation_cons_app [r1; r2] [] r3). apply Permutation_refl.
Defined.

(** The mean of a group in binary64 depends on the order of its cells. *)
Example series_mean_binary64_row_order :
  series_mean [0x1p+60; 0x1p+0; (-0x1p+60)]%float <>
  series_mean [0x1p+60; (-0x1p+60); 0x1p+0]%float.
Proof. vm_compute. discriminate. Qed.

(** * The formula on binary64 *)

(** In binary64, on a column with a valid cell, [rescale_to_range] evaluates
    the formula of the specification with a minimum and a maximum of the
    column: there are a cell [lo] that no valid cell is below and a cell [hi]
    that no valid cell is above such that every cell [v] is mapped to
    [a + (b - a) * (v - lo) / (hi - lo)], each operation rounded. *)
Theorem rescale_to_range_binary64_formula (a b : float) (x : list float) :
  series_count x <> 0 ->
  exists lo hi,
    minimum_of lo x /\ maximum_of hi x /\
    rescale_to_range a b x =
    map (fun v => a + (b - a) * (v - lo) / (hi - lo))%float x.
Proof.
  intro Hc. pose proof (series_count_valid x Hc) as He.
  exists (series_min x), (series_max x).
  assert (Hnull : forall better,
            PrimFloat.is_nan (fold_left (pick better) x PrimFloat.nan) = false).
  { intro better.
    destruct (PrimFloat.is_nan (fold_left (pick better) x PrimFloat.nan)) eqn:E;
      [|reflexivity].
    exfalso. apply Hc. apply series_count_zero.
    exact (proj2 (proj1 (fold_pick_valid (N := Binary64_Numeric) better x
                           PrimFloat.nan) E)). }
  assert (Hmem : forall better, In (fold_left (pick better) x PrimFloat.nan) x).
  { intro better.
    destruct (fold_pick_member (N := Binary64_Numeric) better x PrimFloat.nan)
      as [E|Hin]; [|exact Hin].
    specialize (Hnull better). rewrite E in Hnull. discriminate. }
  split; [|split].
  - split; [apply Hmem|]. split; [apply Hnull|].
    intros v Hv Hn.
    apply (fold_pick_least (N := Binary64_Numeric) PrimFloat.ltb PrimFloat.leb
             Binary64Order.fleb_refl Binary64Order.fleb_trans
             Binary64Order.ltb_leb_cases x He v Hv Hn).
  - split; [apply Hmem|]. split; [apply Hnull|].
    intros v Hv Hn.
    apply (fold_pick_least (N := Binary64_Numeric)
             (fun v acc => PrimFloat.ltb acc v) (fun u w => PrimFloat.leb w u)
             Binary64Order.fleb_refl
             (fun u v w H1 H2 => Binary64Order.fleb_trans w v u H2 H1)).
    + intros u acc Hu Ha.
      pose proof (Binary64Order.ltb_leb_cases acc u Ha Hu) as H.
      destruct (PrimFloat.ltb acc u); exact H.
    + exact He.
    + exact Hv.
    + exact Hn.
  - rewrite rescale_to_range_map. apply map_ext. intro v.
    unfold rescaled. apply Binary64.fadd_comm.
Qed.

Lemma rescale_to_range_binary64_formula_witness :
  let x := [5; PrimFloat.nan; 10; 15]%float in
  exists lo hi,
    minimum_of lo x /\ maximum_of hi x /\
    rescale_to_range 0%float 100%float x =
    map (fun v => 0 + (100 - 0) * (v - lo) / (hi - lo))%float x.
Proof.
  intro x.
  refine (rescale_to_range_binary64_formula 0%float 100%float x _).
  vm_compute. discriminate.
Defined.
